(** * Replay parser and replay database of generals-replay-search

    A shallow embedding of [src/replays/parser.py],
    [src/replays/database.py], the loop of [src/__init__.py] and the
    path handling of [src/replays/gentool_downloader.py], and the
    properties of the decoder that the specification states about them.

    Conventions of the embedding.
    - A Python [str] is the list of its code points, a [bytes] value a list
      of [byte].
    - Python exceptions are the constructors of [exn]; a function that can
      raise returns [res A = exn + A].
    - The interpreter state that outlives a call is the [world]: the unread
      remainder of the open binary file and the store of [list] objects
      (the only objects the parser mutates through a reference).  Code that
      reads the file or touches a list runs in the monad [M]. *)

From Stdlib Require Import ZArith Lia List Ascii String Strings.Byte Bool.
From stdpp Require Import base list.
Import ListNotations.
Local Open Scope Z_scope.

(** ** Python values *)

Definition str := list Z.
Definition bytes := list byte.

(** [ord "H"] is the code point of an ASCII character, [py "GENREP"] an
    ASCII string literal, [lit "GENREP"] an ASCII bytes literal. *)
Definition ord (a : ascii) : Z := Z.of_N (N_of_ascii a).
Definition py (s : string) : str := List.map ord (list_ascii_of_string s).
Definition lit (s : string) : bytes := list_byte_of_string s.
Definition byte_val (x : byte) : Z := Z.of_N (Byte.to_N x).

(** The exceptions the code can raise.  The parser's own failures are all
    [ReplayParserException], told apart by their message: "Unrecognized
    replay type: ..." (the specification's UnrecognizedFormat), "parsing for
    game type ... not implemented yet" (UnsupportedVariant), "invalid replay
    slot type: ..." (InvalidSlotType), "invalid replay slot difficulty: ..."
    (InvalidSlotDifficulty) and "Unexpected replay metadata key: ..."
    (UnrecognizedMetadataKey).  A short integer read is [struct.error]
    (TruncatedInput), undecodable text [UnicodeDecodeError]
    (InvalidEncoding); [int], tuple unpacking and indexing raise the
    untyped [ValueError] and [IndexError]; [sqlite3] raises
    [OverflowError] for an integer it cannot bind, [UnicodeEncodeError]
    for a text it cannot bind and [sqlite3.OperationalError] when the
    database cannot give a row an id; writing a text that has no UTF-8
    encoding to a file raises [UnicodeEncodeError] too. *)
Inductive exn : Type :=
| ReplayParserException (msg : str)
| struct_error
| UnicodeDecodeError
| ValueError
| IndexError
| OverflowError
| UnicodeEncodeError
| OperationalError.

Definition res (A : Type) : Type := (exn + A)%type.

Definition rbind {A B} (m : res A) (k : A -> res B) : res B :=
  match m with
  | inl e => inl e
  | inr a => k a
  end.

Notation "'let?' x := m 'in' k" := (rbind m (fun x => k))
  (at level 10, x name, m at level 100, k at level 200).

(** ** Built-ins used by the parser *)

(** [s.split(sep)] for a one-character separator. *)
Fixpoint split (sep : Z) (s : str) : list str :=
  match s with
  | [] => [[]]
  | c :: s' =>
      if c =? sep then [] :: split sep s'
      else match split sep s' with
           | p :: ps => (c :: p) :: ps
           | [] => [[c]]
           end
  end.

(** [s.split(sep, maxsplit=1)]: one piece when [sep] does not occur, two
    otherwise. *)
Fixpoint split1 (sep : Z) (s : str) : list str :=
  match s with
  | [] => [[]]
  | c :: s' =>
      if c =? sep then [[]; s']
      else match split1 sep s' with
           | p :: ps => (c :: p) :: ps
           | [] => [[c]]
           end
  end.

(** The truth value of a string: [if p] holds for the non-empty ones. *)
Definition truthy (s : str) : bool :=
  match s with [] => false | _ :: _ => true end.

(** [s.encode("utf-8")] succeeds unless [s] holds a surrogate code point
    (U+D800 to U+DFFF), which has no UTF-8 encoding; a file name that is
    not valid UTF-8 is a [str] with such code points.  [has_surrogate]
    tells whether the encoding raises [UnicodeEncodeError]. *)
Definition surrogate (c : Z) : bool := (0xD800 <=? c) && (c <=? 0xDFFF).

Definition has_surrogate (s : str) : bool := existsb surrogate s.

(** *** [int(s)] and [int(s, base=16)]

    CPython first maps every non-ASCII white space to a blank and every
    non-ASCII decimal digit to its ASCII digit (anything else non-ASCII ends
    the text with a question mark), then reads: blanks, a sign, for base 16
    an optional [0x] or [0X] and one underscore, digits with single
    underscores between them, blanks.  Base 10 refuses more than
    [int_max_str_digits] digits. *)

Definition isspace_ascii (c : Z) : bool :=
  (c =? 32) || ((9 <=? c) && (c <=? 13)).

Definition unicode_isspace (c : Z) : bool :=
  (c =? 0x85) || (c =? 0xA0) || (c =? 0x1680)
  || ((0x2000 <=? c) && (c <=? 0x200A))
  || (c =? 0x2028) || (c =? 0x2029) || (c =? 0x202F) || (c =? 0x205F)
  || (c =? 0x3000).

(** First code point of each run of ten decimal digits (Unicode 15.0,
    the table of CPython 3.12); the mathematical digits U+1D7CE..U+1D7FF
    are five consecutive runs. *)
Definition unicode_decimal_starts : list Z :=
  [ 0x0660; 0x06F0; 0x07C0; 0x0966; 0x09E6; 0x0A66; 0x0AE6; 0x0B66;
    0x0BE6; 0x0C66; 0x0CE6; 0x0D66; 0x0DE6; 0x0E50; 0x0ED0; 0x0F20; 0x1040;
    0x1090; 0x17E0; 0x1810; 0x1946; 0x19D0; 0x1A80; 0x1A90; 0x1B50; 0x1BB0;
    0x1C40; 0x1C50; 0xA620; 0xA8D0; 0xA900; 0xA9D0; 0xA9F0; 0xAA50; 0xABF0;
    0xFF10; 0x104A0; 0x10D30; 0x11066; 0x110F0; 0x11136; 0x111D0; 0x112F0;
    0x11450; 0x114D0; 0x11650; 0x116C0; 0x11730; 0x118E0; 0x11950; 0x11C50;
    0x11D50; 0x11DA0; 0x11F50; 0x16A60; 0x16AC0; 0x16B50;
    0x1D7CE; 0x1D7D8; 0x1D7E2; 0x1D7EC; 0x1D7F6;
    0x1E140; 0x1E2F0; 0x1E4F0; 0x1E950; 0x1FBF0 ].

Definition unicode_todecimal (c : Z) : option Z :=
  match List.find (fun s => (s <=? c) && (c <? s + 10)) unicode_decimal_starts with
  | Some s => Some (c - s)
  | None => None
  end.

Fixpoint transform_decimal_and_space (s : str) : str :=
  match s with
  | [] => []
  | c :: s' =>
      if c <? 128 then c :: transform_decimal_and_space s'
      else if unicode_isspace c then 32 :: transform_decimal_and_space s'
      else match unicode_todecimal c with
           | Some d => (48 + d) :: transform_decimal_and_space s'
           | None => [63]
           end
  end.

Definition digit_value (c : Z) : Z :=
  if (48 <=? c) && (c <=? 57) then c - 48
  else if (97 <=? c) && (c <=? 122) then c - 97 + 10
  else if (65 <=? c) && (c <=? 90) then c - 65 + 10
  else 37.

Fixpoint skip_spaces (s : str) : str :=
  match s with
  | c :: s' => if isspace_ascii c then skip_spaces s' else s
  | [] => []
  end.

(** The digit loop: the value read, the number of digits, and the text
    that follows; [None] on a doubled or trailing underscore. *)
Fixpoint scan_digits (base : Z) (s : str) (prev_underscore : bool)
    (value digits : Z) : option (Z * Z * str) :=
  match s with
  | c :: s' =>
      if c =? 95 then
        if prev_underscore then None
        else scan_digits base s' true value digits
      else if digit_value c <? base then
        scan_digits base s' false (value * base + digit_value c) (digits + 1)
      else if prev_underscore then None
      else Some (value, digits, s)
  | [] => if prev_underscore then None else Some (value, digits, [])
  end.

Definition int_max_str_digits : Z := 4300.

Definition int (base : Z) (s : str) : res Z :=
  let s := skip_spaces (transform_decimal_and_space s) in
  let '(sign, s) :=
    match s with
    | 43 :: s' => (1, s')
    | 45 :: s' => (-1, s')
    | _ => (1, s)
    end in
  let s :=
    match s with
    | 48 :: x :: s' =>
        if (base =? 16) && ((x =? 120) || (x =? 88)) then
          match s' with
          | 95 :: s'' => s''
          | _ => s'
          end
        else s
    | _ => s
    end in
  match s with
  | 95 :: _ => inl ValueError
  | _ =>
      match scan_digits base s false 0 0 with
      | None => inl ValueError
      | Some (value, digits, rest) =>
          if digits =? 0 then inl ValueError
          else if negb (base =? 16) && (int_max_str_digits <? digits) then
            inl ValueError
          else match skip_spaces rest with
               | [] => inr (sign * value)
               | _ :: _ => inl ValueError
               end
      end
  end.

(** *** [bytes.decode()]: strict UTF-8 *)

Definition continuation (x : Z) : bool := (0x80 <=? x) && (x <=? 0xBF).

Fixpoint utf8_decode (bs : bytes) : res str :=
  match bs with
  | [] => inr []
  | x0 :: r0 =>
      let b0 := byte_val x0 in
      if b0 <? 0x80 then let? s := utf8_decode r0 in inr (b0 :: s)
      else if b0 <? 0xC2 then inl UnicodeDecodeError
      else if b0 <? 0xE0 then
        match r0 with
        | x1 :: r1 =>
            let b1 := byte_val x1 in
            if continuation b1 then
              let? s := utf8_decode r1 in
              inr (((b0 - 0xC0) * 64 + (b1 - 0x80)) :: s)
            else inl UnicodeDecodeError
        | _ => inl UnicodeDecodeError
        end
      else if b0 <? 0xF0 then
        match r0 with
        | x1 :: x2 :: r2 =>
            let b1 := byte_val x1 in
            let b2 := byte_val x2 in
            let lo := if b0 =? 0xE0 then 0xA0 else 0x80 in
            let hi := if b0 =? 0xED then 0x9F else 0xBF in
            if (lo <=? b1) && (b1 <=? hi) && continuation b2 then
              let? s := utf8_decode r2 in
              inr (((b0 - 0xE0) * 4096 + (b1 - 0x80) * 64 + (b2 - 0x80)) :: s)
            else inl UnicodeDecodeError
        | _ => inl UnicodeDecodeError
        end
      else if b0 <? 0xF5 then
        match r0 with
        | x1 :: x2 :: x3 :: r3 =>
            let b1 := byte_val x1 in
            let b2 := byte_val x2 in
            let b3 := byte_val x3 in
            let lo := if b0 =? 0xF0 then 0x90 else 0x80 in
            let hi := if b0 =? 0xF4 then 0x8F else 0xBF in
            if (lo <=? b1) && (b1 <=? hi) && continuation b2 && continuation b3
            then
              let? s := utf8_decode r3 in
              inr (((b0 - 0xF0) * 262144 + (b1 - 0x80) * 4096
                    + (b2 - 0x80) * 64 + (b3 - 0x80)) :: s)
            else inl UnicodeDecodeError
        | _ => inl UnicodeDecodeError
        end
      else inl UnicodeDecodeError
  end.

(** *** [bytes.decode(encoding="utf_16")]

    A leading byte-order mark selects the byte order and is dropped; without
    one the codec uses the byte order of the machine, little-endian here.  An
    odd trailing byte, a lone surrogate and a high surrogate at the end are
    decoding errors. *)

Fixpoint utf16_units (big_endian : bool) (bs : bytes) : res (list Z) :=
  match bs with
  | [] => inr []
  | [_] => inl UnicodeDecodeError
  | x0 :: x1 :: r =>
      let? us := utf16_units big_endian r in
      inr ((if big_endian then byte_val x0 * 256 + byte_val x1
            else byte_val x0 + byte_val x1 * 256) :: us)
  end.

Definition high_surrogate (u : Z) : bool := (0xD800 <=? u) && (u <=? 0xDBFF).
Definition low_surrogate (u : Z) : bool := (0xDC00 <=? u) && (u <=? 0xDFFF).

Fixpoint utf16_combine (us : list Z) : res str :=
  match us with
  | [] => inr []
  | u :: r =>
      if high_surrogate u then
        match r with
        | l :: r' =>
            if low_surrogate l then
              let? s := utf16_combine r' in
              inr ((0x10000 + (u - 0xD800) * 0x400 + (l - 0xDC00)) :: s)
            else inl UnicodeDecodeError
        | [] => inl UnicodeDecodeError
        end
      else if low_surrogate u then inl UnicodeDecodeError
      else let? s := utf16_combine r in inr (u :: s)
  end.

Definition utf16_decode (bs : bytes) : res str :=
  match bs with
  | x0 :: x1 :: r =>
      if (byte_val x0 =? 0xFF) && (byte_val x1 =? 0xFE) then
        let? us := utf16_units false r in utf16_combine us
      else if (byte_val x0 =? 0xFE) && (byte_val x1 =? 0xFF) then
        let? us := utf16_units true r in utf16_combine us
      else let? us := utf16_units false bs in utf16_combine us
  | _ => let? us := utf16_units false bs in utf16_combine us
  end.

(** *** [struct.unpack("<H", b)[0]] and [struct.unpack("<I", b)[0]] *)

Definition unpack_H (b : bytes) : res Z :=
  match b with
  | [x0; x1] => inr (byte_val x0 + byte_val x1 * 256)
  | _ => inl struct_error
  end.

Definition unpack_I (b : bytes) : res Z :=
  match b with
  | [x0; x1; x2; x3] =>
      inr (byte_val x0 + byte_val x1 * 256 + byte_val x2 * 65536
           + byte_val x3 * 16777216)
  | _ => inl struct_error
  end.

(** ** Enumerations *)

Inductive GameType := GENERALS | BFME | BFME2.

Definition GameType_name (g : GameType) : str :=
  match g with
  | GENERALS => py "GENERALS"
  | BFME => py "BFME"
  | BFME2 => py "BFME2"
  end.

#[global] Instance GameType_eq_dec : EqDecision GameType.
Proof. solve_decision. Defined.

Inductive ReplaySlotType := EMPTY | HUMAN | COMPUTER.

Definition ReplaySlotType_value (t : ReplaySlotType) : Z :=
  match t with
  | EMPTY => 0
  | HUMAN => 1
  | COMPUTER => 2
  end.

Inductive ReplaySlotDifficulty := EASY | MEDIUM | HARD.

Definition ReplaySlotDifficulty_value (d : ReplaySlotDifficulty) : Z :=
  match d with
  | EASY => 1
  | MEDIUM => 2
  | HARD => 3
  end.

(** [l[i]] for a constant index [i >= 0]. *)
Definition index {A} (l : list A) (i : nat) : res A :=
  match l !! i with
  | Some x => inr x
  | None => inl IndexError
  end.

(** ** ReplaySlot *)

Module ReplaySlot.

Record t := mk {
  slot_type : ReplaySlotType;
  human_name : str;
  user_id : Z;
  computer_difficulty : option ReplaySlotDifficulty;
  color : Z;
  faction : Z;
  star_position : Z;
  team : Z
}.

(** [ReplaySlot(slot_type)]: the other fields take the defaults of the
    dataclass. *)
Definition new (slot_type : ReplaySlotType) : t :=
  mk slot_type [] 0 None 0 0 0 0.

Definition set_human_name (v : str) (s : t) : t :=
  mk (slot_type s) v (user_id s) (computer_difficulty s) (color s)
     (faction s) (star_position s) (team s).
Definition set_user_id (v : Z) (s : t) : t :=
  mk (slot_type s) (human_name s) v (computer_difficulty s) (color s)
     (faction s) (star_position s) (team s).
Definition set_computer_difficulty (v : ReplaySlotDifficulty) (s : t) : t :=
  mk (slot_type s) (human_name s) (user_id s) (Some v) (color s)
     (faction s) (star_position s) (team s).
Definition set_color (v : Z) (s : t) : t :=
  mk (slot_type s) (human_name s) (user_id s) (computer_difficulty s) v
     (faction s) (star_position s) (team s).
Definition set_faction (v : Z) (s : t) : t :=
  mk (slot_type s) (human_name s) (user_id s) (computer_difficulty s)
     (color s) v (star_position s) (team s).
Definition set_star_position (v : Z) (s : t) : t :=
  mk (slot_type s) (human_name s) (user_id s) (computer_difficulty s)
     (color s) (faction s) v (team s).
Definition set_team (v : Z) (s : t) : t :=
  mk (slot_type s) (human_name s) (user_id s) (computer_difficulty s)
     (color s) (faction s) (star_position s) v.

Definition _read_slot_type (raw : str) : res ReplaySlotType :=
  let? c := index raw 0 in
  if c =? ord "H" then inr HUMAN
  else if c =? ord "C" then inr COMPUTER
  else if c =? ord "C" then inr COMPUTER
  else if (c =? ord "X") || (c =? ord "O") then inr EMPTY
  else inl (ReplayParserException (py "invalid replay slot type: " ++ [c])).

(** The three markers all return [EASY], and the message of the failure
    shows [raw[0]], as the source has them. *)
Definition _read_slot_difficulty (raw : str) : res ReplaySlotDifficulty :=
  let? c := index raw 1 in
  if c =? ord "E" then inr EASY
  else if c =? ord "M" then inr EASY
  else if c =? ord "H" then inr EASY
  else
    let? c0 := index raw 0 in
    inl (ReplayParserException (py "invalid replay slot difficulty: " ++ [c0])).

Definition parse (raw : str) : res t :=
  let? slot_type := _read_slot_type raw in
  let slot := new slot_type in
  let slot_details := List.filter truthy (split (ord ",") raw) in
  match slot_type with
  | HUMAN =>
      let? d0 := index slot_details 0 in
      let slot := set_human_name (drop 1 d0) slot in
      let? d1 := index slot_details 1 in
      let? v := int 16 d1 in
      let slot := set_user_id v slot in
      let? d4 := index slot_details 4 in
      let? v := int 10 d4 in
      let slot := set_color v slot in
      let? d5 := index slot_details 5 in
      let? v := int 10 d5 in
      let slot := set_faction v slot in
      let? d6 := index slot_details 6 in
      let? v := int 10 d6 in
      let slot := set_star_position v slot in
      let? d7 := index slot_details 7 in
      let? v := int 10 d7 in
      let slot := set_team v slot in
      inr slot
  | COMPUTER =>
      let? v := _read_slot_difficulty raw in
      let slot := set_computer_difficulty v slot in
      let? d1 := index slot_details 1 in
      let? v := int 10 d1 in
      let slot := set_color v slot in
      let? d2 := index slot_details 2 in
      let? v := int 10 d2 in
      let slot := set_faction v slot in
      let? d3 := index slot_details 3 in
      let? v := int 10 d3 in
      let slot := set_star_position v slot in
      let? d4 := index slot_details 4 in
      let? v := int 10 d4 in
      let slot := set_team v slot in
      inr slot
  | EMPTY => inr slot
  end.

End ReplaySlot.

(** ** The interpreter state and its monad *)

(** [file] is what the open [BinaryIO] has not read yet; [lists] holds the
    list objects, a reference to one being its position in the store. *)
Record world := World {
  file : bytes;
  lists : list (list ReplaySlot.t)
}.

Definition M (A : Type) : Type := world -> res A * world.

Definition ret {A} (a : A) : M A := fun w => (inr a, w).

Definition raise {A} (e : exn) : M A := fun w => (inl e, w).

Definition bind {A B} (m : M A) (k : A -> M B) : M B :=
  fun w =>
    match m w with
    | (inl e, w') => (inl e, w')
    | (inr a, w') => k a w'
    end.

Definition lift {A} (r : res A) : M A := fun w => (r, w).

Notation "'do' x <- m ; k" := (bind m (fun x => k))
  (at level 10, x name, m at level 100, k at level 200).

(** [for x in l: body], the loop threading the variables [s] it assigns. *)
Fixpoint for_in {A S} (l : list A) (body : S -> A -> M S) (s : S) : M S :=
  match l with
  | [] => ret s
  | x :: l' => do s' <- body s x; for_in l' body s'
  end.

(** [file.read(n)]: the next [n] bytes, fewer at the end of the file. *)
Definition read (n : nat) : M bytes :=
  fun w => (inr (take n (file w)), World (drop n (file w)) (lists w)).

(** [list()] and [l.append(x)]. *)
Definition list_new : M nat :=
  fun w => (inr (length (lists w)), World (file w) (lists w ++ [[]])).

Definition list_append (l : nat) (x : ReplaySlot.t) : M unit :=
  fun w => (inr tt, World (file w) (alter (fun xs => xs ++ [x]) l (lists w))).

(** ** Primitive readers *)

Definition read_uint16 : M Z :=
  do b <- read 2; lift (unpack_H b).

Definition read_uint32 : M Z :=
  do b <- read 4; lift (unpack_I b).

(** The loop of [read_null_terminated_string] over the unread bytes: the
    bytes collected in [chars] and the bytes left unread. *)
Fixpoint null_terminated_chars (unread : bytes) : bytes * bytes :=
  match unread with
  | [] => ([], [])
  | c :: unread' =>
      if byte_val c =? 0 then ([], unread')
      else let '(chars, rest) := null_terminated_chars unread' in
           (c :: chars, rest)
  end.

Definition read_null_terminated_string : M str :=
  fun w =>
    let '(chars, rest) := null_terminated_chars (file w) in
    (utf8_decode chars, World rest (lists w)).

(** The loop of [read_null_terminated_utf16_string]: [file.read(2)] hands
    out a last odd byte alone, which is collected like any other unit. *)
Fixpoint null_terminated_utf16_chars (unread : bytes) : bytes * bytes :=
  match unread with
  | [] => ([], [])
  | [c] => ([c], [])
  | c0 :: c1 :: unread' =>
      if (byte_val c0 =? 0) && (byte_val c1 =? 0) then ([], unread')
      else let '(chars, rest) := null_terminated_utf16_chars unread' in
           (c0 :: c1 :: chars, rest)
  end.

Definition read_null_terminated_utf16_string : M str :=
  fun w =>
    let '(chars, rest) := null_terminated_utf16_chars (file w) in
    (utf16_decode chars, World rest (lists w)).

(** ** ReplayTimestamp *)

Module ReplayTimestamp.

Record t := mk {
  year : Z;
  month : Z;
  day_of_week : Z;
  day : Z;
  hour : Z;
  minute : Z;
  second : Z;
  millisecond : Z
}.

Definition parse : M t :=
  do year <- read_uint16;
  do month <- read_uint16;
  do day_of_week <- read_uint16;
  do day <- read_uint16;
  do hour <- read_uint16;
  do minute <- read_uint16;
  do second <- read_uint16;
  do millisecond <- read_uint16;
  ret (mk year month day_of_week day hour minute second millisecond).

End ReplayTimestamp.

(** ** ReplayMetadata *)

Module ReplayMetadata.

(** [O] starts as the integer 0 and is assigned the text of its value;
    [slots] is a reference to a list object of the store. *)
Record t := mk {
  mapfile_unknown_int : Z;
  mapfile : str;
  map_crc : Z;
  map_size : Z;
  SD : Z;
  C : Z;
  SR : Z;
  starting_credits : Z;
  O : Z + str;
  slots : nat
}.

(** [ReplayMetadata()]: the defaults of the dataclass, and a list of its
    own for [slots] ([default_factory=list]). *)
Definition new : M t :=
  do slots <- list_new;
  ret (mk 0 [] 0 0 0 0 0 0 (inl 0) slots).

Definition set_mapfile_unknown_int (v : Z) (m : t) : t :=
  mk v (mapfile m) (map_crc m) (map_size m) (SD m) (C m) (SR m)
     (starting_credits m) (O m) (slots m).
Definition set_mapfile (v : str) (m : t) : t :=
  mk (mapfile_unknown_int m) v (map_crc m) (map_size m) (SD m) (C m) (SR m)
     (starting_credits m) (O m) (slots m).
Definition set_map_crc (v : Z) (m : t) : t :=
  mk (mapfile_unknown_int m) (mapfile m) v (map_size m) (SD m) (C m) (SR m)
     (starting_credits m) (O m) (slots m).
Definition set_map_size (v : Z) (m : t) : t :=
  mk (mapfile_unknown_int m) (mapfile m) (map_crc m) v (SD m) (C m) (SR m)
     (starting_credits m) (O m) (slots m).
Definition set_SD (v : Z) (m : t) : t :=
  mk (mapfile_unknown_int m) (mapfile m) (map_crc m) (map_size m) v (C m)
     (SR m) (starting_credits m) (O m) (slots m).
Definition set_C (v : Z) (m : t) : t :=
  mk (mapfile_unknown_int m) (mapfile m) (map_crc m) (map_size m) (SD m) v
     (SR m) (starting_credits m) (O m) (slots m).
Definition set_SR (v : Z) (m : t) : t :=
  mk (mapfile_unknown_int m) (mapfile m) (map_crc m) (map_size m) (SD m)
     (C m) v (starting_credits m) (O m) (slots m).
Definition set_starting_credits (v : Z) (m : t) : t :=
  mk (mapfile_unknown_int m) (mapfile m) (map_crc m) (map_size m) (SD m)
     (C m) (SR m) v (O m) (slots m).
Definition set_O (v : str) (m : t) : t :=
  mk (mapfile_unknown_int m) (mapfile m) (map_crc m) (map_size m) (SD m)
     (C m) (SR m) (starting_credits m) (inr v) (slots m).

(** The loop over the characters of an [M] value: the length of its
    leading run of characters between "0" and "9". *)
Fixpoint int_end (value : str) : nat :=
  match value with
  | [] => 0%nat
  | c :: value' =>
      if negb ((c <=? ord "9") && (ord "0" <=? c)) then 0%nat
      else S (int_end value')
  end.

(** The body of [for slot_raw in value.split(":")]. *)
Definition parse_slot_raw (metadata : t) (slot_raw : str) : M t :=
  if negb (truthy slot_raw) then ret metadata
  else
    do slot <- lift (ReplaySlot.parse slot_raw);
    do _ <- list_append (slots metadata) slot;
    ret metadata.

(** The body of [for entry in raw_split]. *)
Definition parse_entry (metadata : t) (entry : str) : M t :=
  match split1 (ord "=") entry with
  | [key; value] =>
      if decide (key = py "US") then ret metadata
      else if decide (key = py "M") then
        let int_end := int_end value in
        do v <- lift (int 10 (take int_end value));
        let metadata := set_mapfile_unknown_int v metadata in
        ret (set_mapfile (drop int_end value) metadata)
      else if decide (key = py "MC") then
        do v <- lift (int 16 value); ret (set_map_crc v metadata)
      else if decide (key = py "MS") then
        do v <- lift (int 10 value); ret (set_map_size v metadata)
      else if decide (key = py "SD") then
        do v <- lift (int 10 value); ret (set_SD v metadata)
      else if decide (key = py "C") then
        do v <- lift (int 10 value); ret (set_C v metadata)
      else if decide (key = py "SR") then
        do v <- lift (int 10 value); ret (set_SR v metadata)
      else if decide (key = py "SC") then
        do v <- lift (int 10 value); ret (set_starting_credits v metadata)
      else if decide (key = py "O") then
        ret (set_O value metadata)
      else if decide (key = py "S") then
        for_in (split (ord ":") value) parse_slot_raw metadata
      else
        raise (ReplayParserException
                 (py "Unexpected replay metadata key: " ++ key))
  | _ => raise ValueError
  end.

Definition parse : M t :=
  do metadata <- new;
  do raw <- read_null_terminated_string;
  let raw_split := List.filter truthy (split (ord ";") raw) in
  for_in raw_split parse_entry metadata.

End ReplayMetadata.

(** ** Replay *)

Module Replay.

(** [start_date] and [end_date] are the [datetime] values built by
    [fromtimestamp], kept as the epoch seconds they stand for. *)
Record t := mk {
  path : str;
  game_type : GameType;
  start_date : Z;
  end_date : Z;
  num_timecodes : Z;
  filename : str;
  timestamp : ReplayTimestamp.t;
  version : str;
  build_date : str;
  version_minor : Z;
  version_major : Z;
  unknown_hash : bytes;
  metadata : ReplayMetadata.t;
  unknown1 : Z;
  unknown2 : Z;
  unknown3 : Z;
  unknown4 : Z;
  game_speed : Z
}.

Definition _parse_game_type : M GameType :=
  do b <- read 6;
  do game_type <- lift (utf8_decode b);
  if decide (game_type = py "GENREP") then ret GENERALS
  else
    do b <- read 6;
    do game_type <- lift (utf8_decode b);
    if decide (game_type = py "BFMEREPL") then ret BFME
    else if decide (game_type = py "BFME2RPL") then ret BFME2
    else raise (ReplayParserException
                  (py "Unrecognized replay type: " ++ game_type)).

Definition _parse_timestamp : M Z :=
  do timestamp <- read_uint32;
  ret timestamp.

Definition _parse (path : str) : M t :=
  do game_type <- _parse_game_type;
  if decide (game_type <> GENERALS) then
    raise (ReplayParserException
             (py "parsing for game type " ++ GameType_name game_type
              ++ py " not implemented yet"))
  else
  do start_date <- _parse_timestamp;
  do end_date <- _parse_timestamp;
  do num_timecodes <- read_uint16;
  do _zero <- read 12;
  do filename <- read_null_terminated_utf16_string;
  do timestamp <- ReplayTimestamp.parse;
  do version <- read_null_terminated_utf16_string;
  do build_date <- read_null_terminated_utf16_string;
  do version_minor <- read_uint16;
  do version_major <- read_uint16;
  do unknown_hash <- read 8;
  do metadata <- ReplayMetadata.parse;
  do unknown1 <- read_uint16;
  do unknown2 <- read_uint32;
  do unknown3 <- read_uint32;
  do unknown4 <- read_uint32;
  do game_speed <- read_uint32;
  ret (mk path game_type start_date end_date num_timecodes filename
          timestamp version build_date version_minor version_major
          unknown_hash metadata unknown1 unknown2 unknown3 unknown4
          game_speed).

(** [Replay(path)], for a file at [path] holding [contents]: the file is
    opened, parsed and closed; the list objects stay. *)
Definition __init__ (path : str) (contents : bytes)
    (store : list (list ReplaySlot.t))
  : res t * list (list ReplaySlot.t) :=
  let '(r, w) := _parse path (World contents store) in
  (r, lists w).

End Replay.

(** ** ReplayDatabase *)

Module ReplayDatabase.

Record replays_row := mk_replays_row {
  id : Z;
  start_date : Z;
  end_date : Z;
  filename : str;
  version : str;
  build_date : str;
  version_major : Z;
  version_minor : Z;
  game_speed : Z;
  mapfile : str;
  starting_credits : Z
}.

Record slots_row := mk_slots_row {
  replay_id : Z;
  type : Z;
  human_name : str;
  user_id : Z;
  computer_difficulty : Z;
  color : Z;
  faction : Z;
  star_position : Z;
  team : Z
}.

(** The two tables of the connection, each in insertion order. *)
Record t := mk {
  replays : list replays_row;
  slots : list slots_row
}.

(** [sqlite3] binds a Python [int] as a 64-bit signed INTEGER and raises
    [OverflowError] for one that does not fit. *)
Definition bind_int (v : Z) : res Z :=
  if (- 2 ^ 63 <=? v) && (v <? 2 ^ 63) then inr v else inl OverflowError.

(** [sqlite3] binds a Python [str] as its UTF-8 encoding and raises
    [UnicodeEncodeError] for one that has none. *)
Definition bind_text (v : str) : res str :=
  if has_surrogate v then inl UnicodeEncodeError else inr v.

(** The [id] SQLite gives a new row of a table whose key is an INTEGER
    PRIMARY KEY column: 1 in an empty table, otherwise one more than the
    largest id of the table; when that is the largest 64-bit integer,
    SQLite draws candidates between 1 and 2^62 at random and the statement
    fails ("database or disk is full", an [OperationalError]) when it
    finds none that is unused.  [pick] stands for the outcome of that
    search: the candidate found, or any other number when none is. *)
Definition next_id (rows : list replays_row) (pick : Z) : res Z :=
  match List.map id rows with
  | [] => inr 1
  | i :: ids =>
      let largest := fold_right Z.max i ids in
      if largest <? 2 ^ 63 - 1 then inr (largest + 1)
      else if (0 <? pick) && (pick <=? 2 ^ 62)
              && negb (bool_decide (pick ∈ i :: ids))
      then inr pick
      else inl OperationalError
  end.

(** [Path(path).name], for a POSIX path. *)
Definition Path_name (path : str) : str :=
  List.last
    (List.filter (fun p => truthy p && negb (bool_decide (p = py ".")))
                 (split (ord "/") path))
    [].

(** The parameters of [INSERT INTO replays], bound left to right; the
    first that cannot be bound raises.  The row is the one the statement
    inserts once the database has chosen its [id]. *)
Definition replays_params (replay : Replay.t) : res (Z -> replays_row) :=
  let? start_date := bind_int (Replay.start_date replay) in
  let? end_date := bind_int (Replay.end_date replay) in
  let? filename := bind_text (Path_name (Replay.path replay)) in
  let? version := bind_text (Replay.version replay) in
  let? build_date := bind_text (Replay.build_date replay) in
  let? version_major := bind_int (Replay.version_major replay) in
  let? version_minor := bind_int (Replay.version_minor replay) in
  let? game_speed := bind_int (Replay.game_speed replay) in
  let? mapfile :=
    bind_text (ReplayMetadata.mapfile (Replay.metadata replay)) in
  let? starting_credits :=
    bind_int (ReplayMetadata.starting_credits (Replay.metadata replay)) in
  inr (fun new_id =>
         mk_replays_row new_id start_date end_date filename version
           build_date version_major version_minor game_speed mapfile
           starting_credits).

(** The parameters of [INSERT INTO slots], bound left to right;
    [replay_id] is the id the database has returned. *)
Definition slots_params (replay_id : Z) (slot : ReplaySlot.t)
  : res slots_row :=
  let? type := bind_int (ReplaySlotType_value (ReplaySlot.slot_type slot)) in
  let? human_name := bind_text (ReplaySlot.human_name slot) in
  let? user_id := bind_int (ReplaySlot.user_id slot) in
  let? computer_difficulty :=
    bind_int (match ReplaySlot.computer_difficulty slot with
              | Some d => ReplaySlotDifficulty_value d
              | None => 0
              end) in
  let? color := bind_int (ReplaySlot.color slot) in
  let? faction := bind_int (ReplaySlot.faction slot) in
  let? star_position := bind_int (ReplaySlot.star_position slot) in
  let? team := bind_int (ReplaySlot.team slot) in
  inr (mk_slots_row replay_id type human_name user_id
         computer_difficulty color faction star_position team).

(** [for slot in replay.metadata.slots]: a statement that raises leaves
    the rows of the earlier ones in the table. *)
Fixpoint insert_slots (replay_id : Z) (l : list ReplaySlot.t) (self : t)
  : res unit * t :=
  match l with
  | [] => (inr tt, self)
  | slot :: l' =>
      if ReplaySlotType_value (ReplaySlot.slot_type slot) =? 0 then
        insert_slots replay_id l' self
      else
        match slots_params replay_id slot with
        | inl e => (inl e, self)
        | inr row =>
            insert_slots replay_id l'
              (mk (replays self) (slots self ++ [row]))
        end
  end.

(** [add_replay], reading the list object of the slots in [store]; the
    [print] of the new id is left out.  The parameters of the first
    statement are bound before the database looks for an id. *)
Definition add_replay (pick : Z) (self : t) (replay : Replay.t)
    (store : list (list ReplaySlot.t)) : res unit * t :=
  match replays_params replay with
  | inl e => (inl e, self)
  | inr row =>
      match next_id (replays self) pick with
      | inl e => (inl e, self)
      | inr replay_id =>
          let self := mk (replays self ++ [row replay_id]) (slots self) in
          insert_slots replay_id
            (store !!! ReplayMetadata.slots (Replay.metadata replay)) self
      end
  end.

End ReplayDatabase.

(** ** The batch driver ([src/__init__.py])

    The loop of the module over the replay files it finds, given as the
    list of their paths and contents in the order [rglob] yields them;
    [picks i] is the outcome of the search for a row id in the [i]-th
    iteration (see [next_id]).  The state holds the two tables, the store
    of list objects and [failing.txt], kept as the list of the paths
    written to it (the traceback that follows each path is left out; its
    text is ASCII for the exceptions of this code, the repository being
    kept under a path that is).

    The handler of a file whose decode or whose [add_replay] raises writes
    the path to [failing.txt], opened with the encoding UTF-8: for a path
    with a surrogate that write raises [UnicodeEncodeError] inside the
    handler, nothing is written, and the exception ends the loop and the
    script.  The rows the file had inserted by then are never committed,
    so a run that stops leaves the state the last [commit] left.
    Otherwise the loop goes on and the [commit] after the file keeps
    whatever rows the file has inserted. *)

Record run_state := RunState {
  db : ReplayDatabase.t;
  store : list (list ReplaySlot.t);
  failing : list str
}.

(** [file.write(f"- {str(sample_path)}:\n")] on [failing.txt]. *)
Definition write_failing (failing : list str) (sample_path : str)
  : res (list str) :=
  if has_surrogate sample_path then inl UnicodeEncodeError
  else inr (failing ++ [sample_path]).

(** One iteration of the loop: the state after its [commit], or the
    exception that leaves the loop. *)
Definition process (pick : Z) (st : run_state) (sample : str * bytes)
  : res run_state :=
  let '(sample_path, contents) := sample in
  match Replay.__init__ sample_path contents (store st) with
  | (inl _, store') =>
      let? failing := write_failing (failing st) sample_path in
      inr (RunState (db st) store' failing)
  | (inr replay, store') =>
      match ReplayDatabase.add_replay pick (db st) replay store' with
      | (inl _, db') =>
          let? failing := write_failing (failing st) sample_path in
          inr (RunState db' store' failing)
      | (inr _, db') => inr (RunState db' store' (failing st))
      end
  end.

(** The loop: the exception that ended it, if any, and the state it
    leaves. *)
Fixpoint main (picks : nat -> Z) (samples : list (str * bytes))
    (st : run_state) : option exn * run_state :=
  match samples with
  | [] => (None, st)
  | sample :: samples' =>
      match process (picks 0%nat) st sample with
      | inl e => (Some e, st)
      | inr st' => main (fun i => picks (S i)) samples' st'
      end
  end.

(** ** gentool_downloader *)

(** The nine characters of the class of [WINDOWS_DISALLOWED_CHARS_RE]:
    less-than, greater-than, colon, double quote (34), slash, backslash,
    bar, question mark and star. *)
Definition WINDOWS_DISALLOWED_CHARS : list Z :=
  [ord "<"; ord ">"; ord ":"; 34; ord "/"; ord "\"; ord "|"; ord "?";
   ord "*"].

(** The substitution of the empty text for every match of the class:
    every character of the class is dropped. *)
Definition strip_invalid_chars (filename : str) : str :=
  List.filter (fun c => negb (bool_decide (c ∈ WINDOWS_DISALLOWED_CHARS)))
    filename.

(** The list [path_parts] of [GentoolSpider.__init__]. *)
Definition path_parts (subpath : str) : list str :=
  List.filter truthy (split (ord "/") subpath).

(** A [Path] of a POSIX system: its root (empty for a relative path, one
    slash, or two for a text that starts with exactly two) and its
    components.  [Path(s)] drops the empty components and the components
    ".", and keeps the components "..". *)
Record Path := MkPath {
  Path_root : str;
  Path_components : list str
}.

Definition Path_of (s : str) : Path :=
  MkPath
    (match s with
     | c0 :: r0 =>
         if c0 =? ord "/" then
           match r0 with
           | c1 :: r1 =>
               if c1 =? ord "/" then
                 match r1 with
                 | c2 :: _ => if c2 =? ord "/" then py "/" else py "//"
                 | [] => py "//"
                 end
               else py "/"
           | [] => py "/"
           end
         else []
     | [] => []
     end)
    (List.filter (fun p => truthy p && negb (bool_decide (p = py ".")))
       (split (ord "/") s)).

(** [p.joinpath] on the unpacked list [segments]: the components of the
    segments follow those of [p], a segment with a root replacing what
    comes before it. *)
Definition joinpath (p : Path) (segments : list str) : Path :=
  fold_left
    (fun p segment =>
       let q := Path_of segment in
       if truthy (Path_root q) then q
       else MkPath (Path_root p) (Path_components p ++ Path_components q))
    segments p.

(** [self.outdir] as [GentoolSpider.__init__] sets it: [Path(outdir)]
    joined with the unpacked [path_parts]. *)
Definition GentoolSpider_outdir (subpath outdir : str) : Path :=
  joinpath (Path_of outdir) (path_parts subpath).

(** [ReplayMetadata.__eq__], the equality a dataclass generates: field by
    field, the two [slots] lists compared by their elements. *)
Definition ReplayMetadata_eq (store1 : list (list ReplaySlot.t))
    (m1 : ReplayMetadata.t) (store2 : list (list ReplaySlot.t))
    (m2 : ReplayMetadata.t) : Prop :=
  ReplayMetadata.mapfile_unknown_int m1 = ReplayMetadata.mapfile_unknown_int m2
  /\ ReplayMetadata.mapfile m1 = ReplayMetadata.mapfile m2
  /\ ReplayMetadata.map_crc m1 = ReplayMetadata.map_crc m2
  /\ ReplayMetadata.map_size m1 = ReplayMetadata.map_size m2
  /\ ReplayMetadata.SD m1 = ReplayMetadata.SD m2
  /\ ReplayMetadata.C m1 = ReplayMetadata.C m2
  /\ ReplayMetadata.SR m1 = ReplayMetadata.SR m2
  /\ ReplayMetadata.starting_credits m1 = ReplayMetadata.starting_credits m2
  /\ ReplayMetadata.O m1 = ReplayMetadata.O m2
  /\ store1 !! ReplayMetadata.slots m1 = store2 !! ReplayMetadata.slots m2.

(** Two [Replay] objects equal field by field. *)
Definition Replay_fields_eq (store1 : list (list ReplaySlot.t))
    (r1 : Replay.t) (store2 : list (list ReplaySlot.t)) (r2 : Replay.t)
  : Prop :=
  Replay.path r1 = Replay.path r2
  /\ Replay.game_type r1 = Replay.game_type r2
  /\ Replay.start_date r1 = Replay.start_date r2
  /\ Replay.end_date r1 = Replay.end_date r2
  /\ Replay.num_timecodes r1 = Replay.num_timecodes r2
  /\ Replay.filename r1 = Replay.filename r2
  /\ Replay.timestamp r1 = Replay.timestamp r2
  /\ Replay.version r1 = Replay.version r2
  /\ Replay.build_date r1 = Replay.build_date r2
  /\ Replay.version_minor r1 = Replay.version_minor r2
  /\ Replay.version_major r1 = Replay.version_major r2
  /\ Replay.unknown_hash r1 = Replay.unknown_hash r2
  /\ ReplayMetadata_eq store1 (Replay.metadata r1) store2 (Replay.metadata r2)
  /\ Replay.unknown1 r1 = Replay.unknown1 r2
  /\ Replay.unknown2 r1 = Replay.unknown2 r2
  /\ Replay.unknown3 r1 = Replay.unknown3 r2
  /\ Replay.unknown4 r1 = Replay.unknown4 r2
  /\ Replay.game_speed r1 = Replay.game_speed r2.

(** * Vocabulary of the proofs *)

(** ** Files that go on

    [feed ext w] is the world [w] with [ext] added at the end of the file.
    A computation is [stable] when a successful run is not changed by what
    follows in the file; [stable_if_unread] when that holds for the runs
    that leave bytes unread.  [needs_input] computations fail at the end of
    the file, [keeps_eof] ones stay there, [keeps_file] ones do not read. *)

Definition feed (ext : bytes) (w : world) : world :=
  World (file w ++ ext) (lists w).

Definition stable {A} (m : M A) : Prop :=
  forall w a w', m w = (inr a, w') ->
    forall ext, m (feed ext w) = (inr a, feed ext w').

Definition stable_if_unread {A} (m : M A) : Prop :=
  forall w a w', m w = (inr a, w') -> file w' <> [] ->
    forall ext, m (feed ext w) = (inr a, feed ext w').

Definition needs_input {A} (m : M A) : Prop :=
  forall w a w', m w = (inr a, w') -> file w <> [].

Definition keeps_eof {A} (m : M A) : Prop :=
  forall w a w', m w = (inr a, w') -> file w = [] -> file w' = [].

Definition keeps_file {A} (m : M A) : Prop :=
  forall w r w', m w = (r, w') -> file w' = file w.

(** ** Failures *)



(** The segments the entry parser accepts whatever the state. *)
Definition accepted (entry : str) : Prop :=
  forall metadata w, exists metadata' w',
    ReplayMetadata.parse_entry metadata entry w = (inr metadata', w').

(** ** Stores that already hold lists

    [shift s w] is the world [w] with the lists [s] in front of its own.
    A run in the shifted world is the run in [w] with every reference it
    makes moved by the length of [s]: [shifted n f m1 m2] says so for [m1]
    in the shifted world and [m2] in [w], [f] moving the references of a
    result. *)

Definition shift (s : list (list ReplaySlot.t)) (w : world) : world :=
  World (file w) (s ++ lists w).

Definition rmap {A} (f : A -> A) (r : res A) : res A :=
  match r with
  | inl e => inl e
  | inr a => inr (f a)
  end.

Definition shifted {A} (n : nat) (f : A -> A) (m1 m2 : M A) : Prop :=
  forall s w, length s = n ->
    m1 (shift s w) = (rmap f (fst (m2 w)), shift s (snd (m2 w))).

Definition ReplayMetadata_move (n : nat) (m : ReplayMetadata.t)
  : ReplayMetadata.t :=
  ReplayMetadata.mk
    (ReplayMetadata.mapfile_unknown_int m) (ReplayMetadata.mapfile m)
    (ReplayMetadata.map_crc m) (ReplayMetadata.map_size m)
    (ReplayMetadata.SD m) (ReplayMetadata.C m) (ReplayMetadata.SR m)
    (ReplayMetadata.starting_credits m) (ReplayMetadata.O m)
    (n + ReplayMetadata.slots m)%nat.

Definition Replay_move (n : nat) (r : Replay.t) : Replay.t :=
  Replay.mk
    (Replay.path r) (Replay.game_type r) (Replay.start_date r)
    (Replay.end_date r) (Replay.num_timecodes r) (Replay.filename r)
    (Replay.timestamp r) (Replay.version r) (Replay.build_date r)
    (Replay.version_minor r) (Replay.version_major r)
    (Replay.unknown_hash r) (ReplayMetadata_move n (Replay.metadata r))
    (Replay.unknown1 r) (Replay.unknown2 r) (Replay.unknown3 r)
    (Replay.unknown4 r) (Replay.game_speed r).

(** Readers leave the store alone; the metadata parser adds one list to it
    and appends to that list only, and its loops hand on the reference
    they were given. *)
Definition keeps_lists {A} (m : M A) : Prop :=
  forall w r w', m w = (r, w') -> lists w' = lists w.

Definition keeps_length {A} (m : M A) : Prop :=
  forall w r w', m w = (r, w') -> length (lists w') = length (lists w).

Definition keeps_slots (k : ReplayMetadata.t -> M ReplayMetadata.t) : Prop :=
  forall m w m' w', k m w = (inr m', w') ->
    ReplayMetadata.slots m' = ReplayMetadata.slots m.


(** ** The rows of the slots table *)


(** A slot that is not EMPTY, and the row [add_replay] builds for it. *)
Definition occupied (slot : ReplaySlot.t) : bool :=
  negb (ReplaySlotType_value (ReplaySlot.slot_type slot) =? 0).

Definition slots_row_of (replay_id : Z) (slot : ReplaySlot.t)
  : ReplayDatabase.slots_row :=
  ReplayDatabase.mk_slots_row replay_id
    (ReplaySlotType_value (ReplaySlot.slot_type slot))
    (ReplaySlot.human_name slot) (ReplaySlot.user_id slot)
    (match ReplaySlot.computer_difficulty slot with
     | Some d => ReplaySlotDifficulty_value d
     | None => 0
     end)
    (ReplaySlot.color slot) (ReplaySlot.faction slot)
    (ReplaySlot.star_position slot) (ReplaySlot.team slot).


(** ** The tables *)

(** The ids of the replays are pairwise distinct, and every row of the
    slots table belongs to a row of the replays table. *)
Definition db_ok (self : ReplayDatabase.t) : Prop :=
  NoDup (List.map ReplayDatabase.id (ReplayDatabase.replays self))
  /\ Forall (fun row =>
               ReplayDatabase.replay_id row
               ∈ List.map ReplayDatabase.id (ReplayDatabase.replays self))
            (ReplayDatabase.slots self).

(** The value of a text of decimal digits. *)
Definition decimal (digits : str) : Z :=
  fold_left (fun value c => value * 10 + (c - 48)) digits 0.

(** A computation whose successful runs read at least [n] bytes, and one
    for which that holds of the runs that leave bytes unread. *)
Definition consumes {A} (n : nat) (m : M A) : Prop :=
  forall w a w', m w = (inr a, w') ->
    (length (file w') + n <= length (file w))%nat.

Definition consumes_if_unread {A} (n : nat) (m : M A) : Prop :=
  forall w a w', m w = (inr a, w') -> file w' <> [] ->
    (length (file w') + n <= length (file w))%nat.

(** Bytes none of whose 2-byte units is zero. *)
Fixpoint no_zero_unit (bs : bytes) : Prop :=
  match bs with
  | x0 :: x1 :: r => ~ (byte_val x0 = 0 /\ byte_val x1 = 0) /\ no_zero_unit r
  | _ => True
  end.

(** ** Sample files *)

(** The metadata text of the examples. *)
Definition metadata_example : bytes :=
  lit "US=1;MC=ff;MS=100;SC=5000;S=H0xAB,1,1,1,0,1,0,0:X:".

(** A smallest well-formed replay: the tag and seventy-five zero bytes
    (empty names, an empty metadata block, every integer zero). *)
Definition replay_example : bytes := lit "GENREP" ++ repeat x00 75.

(** A replay with the metadata of the example, the record it decodes to
    and the store the decode leaves. *)
Definition replay_with_slots : bytes :=
  lit "GENREP" ++ repeat x00 56 ++ metadata_example ++ repeat x00 19.

Definition replay_with_slots_decoded : Replay.t :=
  Replay.mk (py "a.rep") GENERALS 0 0 0 []
    (ReplayTimestamp.mk 0 0 0 0 0 0 0 0) [] [] 0 0 (repeat x00 8)
    (ReplayMetadata.mk 0 [] 255 100 0 0 0 5000 (inl 0) 0) 0 0 0 0 0.

Definition replay_with_slots_store : list (list ReplaySlot.t) :=
  [[ReplaySlot.mk HUMAN (py "0xAB") 1 None 0 1 0 0; ReplaySlot.new EMPTY]].


(** A replay whose second slot has the user id 2^64. *)
Definition replay_wide_user_id : bytes :=
  lit "GENREP" ++ repeat x00 56
  ++ lit "S=CE,1,1,1,1:Ha,10000000000000000,1,1,1,1,1,1:" ++ repeat x00 19.

(** * Properties *)

(** ** The built-ins on examples *)

Example int_examples :
  int 10 (py "42") = inr 42 /\ int 16 (py "ff") = inr 255
  /\ int 16 (py "0xAB") = inr 171 /\ int 10 (py "") = inl ValueError
  /\ int 10 (py " -1_0 ") = inr (-10) /\ int 10 (py "1__0") = inl ValueError
  /\ int 10 (py "0x1") = inl ValueError /\ int 10 [0x0663] = inr 3.
Proof. vm_compute. repeat split. Qed.

Example split_examples :
  split (ord ",") (py "a,,b") = [py "a"; py ""; py "b"]
  /\ split (ord ",") (py "") = [py ""]
  /\ split1 (ord "=") (py "k=v=w") = [py "k"; py "v=w"]
  /\ split1 (ord "=") (py "kv") = [py "kv"].
Proof. vm_compute. repeat split. Qed.

Example decode_examples :
  utf8_decode (lit "GENREP") = inr (py "GENREP")
  /\ utf8_decode [xc3; xa9] = inr [0xE9]
  /\ utf8_decode [xff] = inl UnicodeDecodeError
  /\ utf16_decode [x41; x00; x3d; xd8; x00; xde] = inr [0x41; 0x1F600]
  /\ utf16_decode [x41] = inl UnicodeDecodeError.
Proof. vm_compute. repeat split. Qed.

(** ** The monad *)

Lemma bind_inr {A B} (m : M A) (k : A -> M B) w a w' :
  m w = (inr a, w') -> bind m k w = k a w'.
Proof. unfold bind. intros ->. reflexivity. Qed.

Lemma bind_inl {A B} (m : M A) (k : A -> M B) w e w' :
  m w = (inl e, w') -> bind m k w = (inl e, w').
Proof. unfold bind. intros ->. reflexivity. Qed.

Lemma bind_inr_inv {A B} (m : M A) (k : A -> M B) w b w2 :
  bind m k w = (inr b, w2) ->
  exists a w1, m w = (inr a, w1) /\ k a w1 = (inr b, w2).
Proof.
  unfold bind. destruct (m w) as [[e | a] w1]; intros H.
  - discriminate.
  - eauto.
Qed.


(** ** Reading a longer file *)

Lemma stable_weaken {A} (m : M A) : stable m -> stable_if_unread m.
Proof. intros H w a w' Hm _. exact (H w a w' Hm). Qed.

Lemma keeps_file_eof {A} (m : M A) : keeps_file m -> keeps_eof m.
Proof. intros H w a w' Hm E. rewrite (H _ _ _ Hm). exact E. Qed.

Lemma stable_ret {A} (a : A) : stable (ret a).
Proof. intros w b w' H ext. inversion H. reflexivity. Qed.

Lemma stable_raise {A} (e : exn) : stable (@raise A e).
Proof. intros w b w' H. discriminate. Qed.

Lemma stable_lift {A} (r : res A) : stable (lift r).
Proof. intros w b w' H ext. inversion H. reflexivity. Qed.

Lemma stable_bind {A B} (m : M A) (k : A -> M B) :
  stable m -> (forall a, stable (k a)) -> stable (bind m k).
Proof.
  intros Hm Hk w b w2 H ext.
  apply bind_inr_inv in H as (a & w1 & H1 & H2).
  rewrite (bind_inr _ _ _ _ _ (Hm _ _ _ H1 ext)).
  exact (Hk a _ _ _ H2 ext).
Qed.

Lemma stable_bind_unread {A B} (m : M A) (k : A -> M B) :
  stable_if_unread m -> (forall a, stable (k a)) ->
  (forall a, needs_input (k a)) -> stable (bind m k).
Proof.
  intros Hm Hk Hn w b w2 H ext.
  apply bind_inr_inv in H as (a & w1 & H1 & H2).
  rewrite (bind_inr _ _ _ _ _ (Hm _ _ _ H1 (Hn a _ _ _ H2) ext)).
  exact (Hk a _ _ _ H2 ext).
Qed.

Lemma stable_if_unread_bind {A B} (m : M A) (k : A -> M B) :
  stable_if_unread m -> (forall a, stable (k a)) ->
  (forall a, keeps_file (k a)) -> stable_if_unread (bind m k).
Proof.
  intros Hm Hk Hf w b w2 H Hne ext.
  apply bind_inr_inv in H as (a & w1 & H1 & H2).
  assert (file w1 <> []) as Hne1 by (rewrite <- (Hf a _ _ _ H2); exact Hne).
  rewrite (bind_inr _ _ _ _ _ (Hm _ _ _ H1 Hne1 ext)).
  exact (Hk a _ _ _ H2 ext).
Qed.

Lemma needs_input_bind {A B} (m : M A) (k : A -> M B) :
  needs_input m -> needs_input (bind m k).
Proof.
  intros Hm w b w2 H.
  apply bind_inr_inv in H as (a & w1 & H1 & _). exact (Hm _ _ _ H1).
Qed.

Lemma needs_input_bind_eof {A B} (m : M A) (k : A -> M B) :
  keeps_eof m -> (forall a, needs_input (k a)) -> needs_input (bind m k).
Proof.
  intros Hm Hk w b w2 H E.
  apply bind_inr_inv in H as (a & w1 & H1 & H2).
  exact (Hk a _ _ _ H2 (Hm _ _ _ H1 E)).
Qed.

Lemma needs_input_raise {A} (e : exn) : needs_input (@raise A e).
Proof. intros w b w' H. discriminate. Qed.

Lemma keeps_file_ret {A} (a : A) : keeps_file (ret a).
Proof. intros w r w' H. inversion H. reflexivity. Qed.

Lemma keeps_file_raise {A} (e : exn) : keeps_file (@raise A e).
Proof. intros w r w' H. inversion H. reflexivity. Qed.

Lemma keeps_file_lift {A} (r : res A) : keeps_file (lift r).
Proof. intros w r' w' H. inversion H. reflexivity. Qed.

Lemma keeps_file_bind {A B} (m : M A) (k : A -> M B) :
  keeps_file m -> (forall a, keeps_file (k a)) -> keeps_file (bind m k).
Proof.
  intros Hm Hk w r w2. unfold bind.
  destruct (m w) as [[e | a] w1] eqn:E; intros H.
  - inversion H; subst. exact (Hm _ _ _ E).
  - rewrite (Hk a _ _ _ H). exact (Hm _ _ _ E).
Qed.

Lemma stable_for_in {A S} (body : S -> A -> M S) (l : list A) :
  (forall s x, stable (body s x)) -> forall s, stable (for_in l body s).
Proof.
  intros Hb. induction l as [| x l IH]; intros s; simpl.
  - apply stable_ret.
  - apply stable_bind; [apply Hb | exact IH].
Qed.

Lemma keeps_file_for_in {A S} (body : S -> A -> M S) (l : list A) :
  (forall s x, keeps_file (body s x)) -> forall s, keeps_file (for_in l body s).
Proof.
  intros Hb. induction l as [| x l IH]; intros s; simpl.
  - apply keeps_file_ret.
  - apply keeps_file_bind; [apply Hb | exact IH].
Qed.

Lemma stable_if_unread_bind_l {A B} (m : M A) (k : A -> M B) :
  stable m -> (forall a, stable_if_unread (k a)) ->
  stable_if_unread (bind m k).
Proof.
  intros Hm Hk w b w2 H Hne ext.
  apply bind_inr_inv in H as (a & w1 & H1 & H2).
  rewrite (bind_inr _ _ _ _ _ (Hm _ _ _ H1 ext)).
  exact (Hk a _ _ _ H2 Hne ext).
Qed.

Lemma keeps_eof_bind {A B} (m : M A) (k : A -> M B) :
  keeps_eof m -> (forall a, keeps_eof (k a)) -> keeps_eof (bind m k).
Proof.
  intros Hm Hk w b w2 H E.
  apply bind_inr_inv in H as (a & w1 & H1 & H2).
  exact (Hk a _ _ _ H2 (Hm _ _ _ H1 E)).
Qed.

(** ** The primitive readers on a longer file *)

Lemma read_stable_if_unread n : stable_if_unread (read n).
Proof.
  intros [f l] a w' H Hne ext. unfold read in *. simpl in *.
  inversion H; subst; clear H. simpl in Hne.
  assert (n < length f)%nat as Hn.
  { destruct (Nat.lt_ge_cases n (length f)) as [Hlt | Hge]; [exact Hlt |].
    exfalso. apply Hne. apply drop_ge. exact Hge. }
  unfold feed. simpl.
  rewrite take_app_le by lia. rewrite drop_app_le by lia. reflexivity.
Qed.

Lemma read_keeps_eof n : keeps_eof (read n).
Proof.
  intros [f l] a w' H E. simpl in E. subst f. unfold read in H. simpl in H.
  inversion H. simpl. apply drop_nil.
Qed.

Lemma read_uint16_stable : stable read_uint16.
Proof.
  intros [f l] a w' H ext. unfold read_uint16, bind, read, lift, feed in *.
  simpl in *. destruct f as [| x0 [| x1 r]]; simpl in *; try discriminate.
  inversion H; subst. reflexivity.
Qed.

Lemma read_uint16_needs_input : needs_input read_uint16.
Proof.
  intros [f l] a w' H E. simpl in E. subst f. discriminate.
Qed.

Lemma read_uint32_stable : stable read_uint32.
Proof.
  intros [f l] a w' H ext. unfold read_uint32, bind, read, lift, feed in *.
  simpl in *.
  destruct f as [| x0 [| x1 [| x2 [| x3 r]]]]; simpl in *; try discriminate.
  inversion H; subst. reflexivity.
Qed.

Lemma read_uint32_needs_input : needs_input read_uint32.
Proof.
  intros [f l] a w' H E. simpl in E. subst f. discriminate.
Qed.

Lemma null_terminated_chars_app f :
  forall chars rest,
    null_terminated_chars f = (chars, rest) -> rest <> [] ->
    forall ext, null_terminated_chars (f ++ ext) = (chars, rest ++ ext).
Proof.
  induction f as [| c f IH]; intros chars rest H Hne ext; simpl in *.
  - inversion H; subst. congruence.
  - destruct (byte_val c =? 0).
    + inversion H; subst. reflexivity.
    + destruct (null_terminated_chars f) as [cs r] eqn:E.
      inversion H; subst. rewrite (IH _ _ eq_refl Hne ext). reflexivity.
Qed.

(** Induction over a list two elements at a time. *)
Lemma list_pair_ind {A} (P : list A -> Prop) :
  P [] -> (forall x, P [x]) -> (forall x y l, P l -> P (x :: y :: l)) ->
  forall l, P l.
Proof.
  intros H0 H1 H2.
  assert (forall l, P l /\ forall x, P (x :: l)) as H.
  { induction l as [| y l [IHa IHb]]; split; auto. }
  intros l. apply H.
Qed.

Lemma null_terminated_utf16_chars_app f :
  forall chars rest,
    null_terminated_utf16_chars f = (chars, rest) -> rest <> [] ->
    forall ext, null_terminated_utf16_chars (f ++ ext) = (chars, rest ++ ext).
Proof.
  induction f as [| c | c0 c1 f IH] using list_pair_ind;
    intros chars rest H Hne ext.
  - simpl in H. inversion H; subst. congruence.
  - simpl in H. inversion H; subst. congruence.
  - change ((c0 :: c1 :: f) ++ ext) with (c0 :: c1 :: (f ++ ext)).
    simpl in *. destruct ((byte_val c0 =? 0) && (byte_val c1 =? 0)).
    + inversion H; subst. reflexivity.
    + destruct (null_terminated_utf16_chars f) as [cs r] eqn:E.
      inversion H; subst. rewrite (IH _ _ eq_refl Hne ext). reflexivity.
Qed.

Lemma read_null_terminated_string_stable_if_unread :
  stable_if_unread read_null_terminated_string.
Proof.
  intros [f l] a w' H Hne ext. unfold read_null_terminated_string, feed in *.
  simpl in *. destruct (null_terminated_chars f) as [cs r] eqn:E.
  inversion H; subst; clear H. simpl in Hne.
  rewrite (null_terminated_chars_app _ _ _ E Hne ext). simpl.
  rewrite H1. reflexivity.
Qed.

Lemma read_null_terminated_string_keeps_eof :
  keeps_eof read_null_terminated_string.
Proof.
  intros [f l] a w' H E. simpl in E. subst f.
  unfold read_null_terminated_string in H. simpl in H.
  inversion H. reflexivity.
Qed.

Lemma read_null_terminated_utf16_string_stable_if_unread :
  stable_if_unread read_null_terminated_utf16_string.
Proof.
  intros [f l] a w' H Hne ext.
  unfold read_null_terminated_utf16_string, feed in *.
  simpl in *. destruct (null_terminated_utf16_chars f) as [cs r] eqn:E.
  inversion H; subst; clear H. simpl in Hne.
  rewrite (null_terminated_utf16_chars_app _ _ _ E Hne ext). simpl.
  rewrite H1. reflexivity.
Qed.

Lemma read_null_terminated_utf16_string_keeps_eof :
  keeps_eof read_null_terminated_utf16_string.
Proof.
  intros [f l] a w' H E. simpl in E. subst f.
  unfold read_null_terminated_utf16_string in H. simpl in H.
  inversion H. reflexivity.
Qed.

Lemma list_new_stable : stable list_new.
Proof. intros w a w' H ext. inversion H; subst. reflexivity. Qed.

Lemma list_new_keeps_file : keeps_file list_new.
Proof. intros w r w' H. inversion H; subst. reflexivity. Qed.

Lemma list_append_stable l x : stable (list_append l x).
Proof. intros w a w' H ext. inversion H; subst. reflexivity. Qed.

Lemma list_append_keeps_file l x : keeps_file (list_append l x).
Proof. intros w r w' H. inversion H; subst. reflexivity. Qed.

Create HintDb stable_db.

#[local] Hint Resolve stable_ret stable_raise stable_lift list_new_stable
  list_append_stable read_uint16_stable read_uint32_stable
  keeps_file_ret keeps_file_raise keeps_file_lift list_new_keeps_file
  list_append_keeps_file needs_input_raise read_uint16_needs_input
  read_uint32_needs_input read_keeps_eof read_stable_if_unread
  read_null_terminated_string_stable_if_unread
  read_null_terminated_string_keeps_eof
  read_null_terminated_utf16_string_stable_if_unread
  read_null_terminated_utf16_string_keeps_eof : stable_db.

(** Goals about a body that does not read the file. *)
Ltac no_read :=
  repeat first
    [ progress auto with stable_db
    | apply stable_bind; [| intros ?]
    | apply keeps_file_bind; [| intros ?]
    | apply stable_for_in; intros ? ?
    | apply keeps_file_for_in; intros ? ?
    | case_decide ].

Lemma parse_slot_raw_stable metadata slot_raw :
  stable (ReplayMetadata.parse_slot_raw metadata slot_raw).
Proof.
  unfold ReplayMetadata.parse_slot_raw.
  destruct (negb (truthy slot_raw)); no_read.
Qed.

Lemma parse_slot_raw_keeps_file metadata slot_raw :
  keeps_file (ReplayMetadata.parse_slot_raw metadata slot_raw).
Proof.
  unfold ReplayMetadata.parse_slot_raw.
  destruct (negb (truthy slot_raw)); no_read.
Qed.

#[local] Hint Resolve parse_slot_raw_stable parse_slot_raw_keeps_file
  : stable_db.

Lemma parse_entry_stable metadata entry :
  stable (ReplayMetadata.parse_entry metadata entry).
Proof.
  unfold ReplayMetadata.parse_entry.
  destruct (split1 (ord "=") entry) as [| key [| value [| ? ?]]]; no_read.
Qed.

Lemma parse_entry_keeps_file metadata entry :
  keeps_file (ReplayMetadata.parse_entry metadata entry).
Proof.
  unfold ReplayMetadata.parse_entry.
  destruct (split1 (ord "=") entry) as [| key [| value [| ? ?]]]; no_read.
Qed.

#[local] Hint Resolve parse_entry_stable parse_entry_keeps_file : stable_db.

Lemma ReplayMetadata_parse_stable_if_unread :
  stable_if_unread ReplayMetadata.parse.
Proof.
  unfold ReplayMetadata.parse, ReplayMetadata.new.
  apply stable_if_unread_bind_l; [no_read |]. intros metadata.
  apply stable_if_unread_bind; [auto with stable_db | |]; intros raw; no_read.
Qed.

Lemma ReplayMetadata_parse_keeps_eof : keeps_eof ReplayMetadata.parse.
Proof.
  unfold ReplayMetadata.parse, ReplayMetadata.new.
  apply keeps_eof_bind; [apply keeps_file_eof; no_read |]. intros metadata.
  apply keeps_eof_bind; [auto with stable_db |]. intros raw.
  apply keeps_file_eof. no_read.
Qed.

Lemma ReplayTimestamp_parse_stable : stable ReplayTimestamp.parse.
Proof. unfold ReplayTimestamp.parse. no_read. Qed.

Lemma ReplayTimestamp_parse_needs_input : needs_input ReplayTimestamp.parse.
Proof.
  unfold ReplayTimestamp.parse. apply needs_input_bind.
  apply read_uint16_needs_input.
Qed.

Lemma stable_if_unread_bind_eof {A B} (m : M A) (k : A -> M B) :
  stable_if_unread m -> (forall a, stable_if_unread (k a)) ->
  (forall a, keeps_eof (k a)) -> stable_if_unread (bind m k).
Proof.
  intros Hm Hk He w b w2 H Hne ext.
  apply bind_inr_inv in H as (a & w1 & H1 & H2).
  assert (file w1 <> []) as Hne1.
  { intros E. apply Hne. exact (He a _ _ _ H2 E). }
  rewrite (bind_inr _ _ _ _ _ (Hm _ _ _ H1 Hne1 ext)).
  exact (Hk a _ _ _ H2 Hne ext).
Qed.

Lemma parse_game_type_stable_if_unread :
  stable_if_unread Replay._parse_game_type.
Proof.
  unfold Replay._parse_game_type.
  apply stable_if_unread_bind_eof; [auto with stable_db | |]; intros b.
  - apply stable_if_unread_bind_l; [no_read |]. intros game_type.
    case_decide; [apply stable_weaken; no_read |].
    apply stable_if_unread_bind; [auto with stable_db | |]; intros b';
      no_read.
  - apply keeps_eof_bind; [apply keeps_file_eof; no_read |]. intros game_type.
    case_decide; [apply keeps_file_eof; no_read |].
    apply keeps_eof_bind; [auto with stable_db |]. intros b'.
    apply keeps_file_eof. no_read.
Qed.

Lemma parse_timestamp_stable : stable Replay._parse_timestamp.
Proof. unfold Replay._parse_timestamp. no_read. Qed.

Lemma parse_timestamp_needs_input : needs_input Replay._parse_timestamp.
Proof.
  unfold Replay._parse_timestamp. apply needs_input_bind.
  apply read_uint32_needs_input.
Qed.

#[local] Hint Resolve parse_game_type_stable_if_unread parse_timestamp_stable
  parse_timestamp_needs_input ReplayTimestamp_parse_stable
  ReplayTimestamp_parse_needs_input ReplayMetadata_parse_stable_if_unread
  ReplayMetadata_parse_keeps_eof : stable_db.

(** A sequence of reads needs input when its first read that cannot succeed
    at the end of the file is reached through reads that stay there. *)
Ltac reads_need_input :=
  solve [ repeat first
    [ apply needs_input_raise
    | apply needs_input_bind; solve [auto with stable_db]
    | apply needs_input_bind_eof; [solve [auto with stable_db] | intros ?]
    | case_decide ] ].

Ltac reads_stable :=
  repeat first
    [ apply stable_ret
    | apply stable_raise
    | apply stable_bind; [solve [auto with stable_db] | intros ?]
    | apply stable_bind_unread;
        [solve [auto with stable_db] | intros ? | intros ?; reads_need_input]
    | case_decide ].

(** A decode that succeeds reads the same record from any longer file and
    leaves what was added unread. *)
Lemma parse_stable path : stable (Replay._parse path).
Proof. unfold Replay._parse. reads_stable. Qed.



(** ** Decoding text *)

Lemma rbind_inr_inv {A B} (m : res A) (k : A -> res B) b :
  rbind m k = inr b -> exists a, m = inr a /\ k a = inr b.
Proof. destruct m as [e | a]; simpl; intros H; [discriminate | eauto]. Qed.

Lemma rbind_inl_inv {A B} (m : res A) (k : A -> res B) e :
  rbind m k = inl e -> m = inl e \/ exists a, m = inr a /\ k a = inl e.
Proof.
  destruct m as [e' | a]; simpl; intros H;
    [left; congruence | right; eauto].
Qed.

(** Every code point takes at least one byte. *)
Lemma utf8_decode_length_le n :
  forall bs s, (length bs <= n)%nat -> utf8_decode bs = inr s ->
               (length s <= length bs)%nat.
Proof.
  induction n as [| n IH]; intros bs s Hn H.
  - destruct bs; [| simpl in Hn; lia]. inversion H. simpl. lia.
  - destruct bs as [| x0 r0]; [inversion H; simpl; lia |].
    simpl in Hn. cbn [utf8_decode] in H. cbv zeta in H.
    repeat (case_match; try discriminate);
      apply rbind_inr_inv in H as (s0 & E & H); inversion H; subst;
      apply IH in E; simpl in *; lia.
Qed.

Lemma utf8_decode_length bs s :
  utf8_decode bs = inr s -> (length s <= length bs)%nat.
Proof. apply (utf8_decode_length_le (length bs)). lia. Qed.

Lemma utf8_decode_error_le n :
  forall bs e, (length bs <= n)%nat -> utf8_decode bs = inl e ->
               e = UnicodeDecodeError.
Proof.
  induction n as [| n IH]; intros bs e Hn H.
  - destruct bs; [| simpl in Hn; lia]. discriminate.
  - destruct bs as [| x0 r0]; [discriminate |].
    simpl in Hn. cbn [utf8_decode] in H. cbv zeta in H.
    repeat (case_match; try congruence);
      apply rbind_inl_inv in H as [E | (s0 & E & H)]; try discriminate;
      apply IH in E; simpl in *; (lia || assumption).
Qed.

Lemma utf8_decode_error bs e :
  utf8_decode bs = inl e -> e = UnicodeDecodeError.
Proof. apply (utf8_decode_error_le (length bs)). lia. Qed.




(** ** The failures of a computation *)

















(** ** The variant tag *)

(** The second read compares at most six characters with markers of
    eight: no file is ever taken for a BFME or BFME2 replay. *)
Lemma parse_game_type_GENERALS w g w' :
  Replay._parse_game_type w = (inr g, w') -> g = GENERALS.
Proof.
  unfold Replay._parse_game_type. intros H.
  apply bind_inr_inv in H as (b & w1 & _ & H).
  apply bind_inr_inv in H as (game_type & w2 & _ & H).
  case_decide; [inversion H; reflexivity |].
  apply bind_inr_inv in H as (b' & w3 & Hb' & H).
  apply bind_inr_inv in H as (tag & w4 & Htag & H).
  unfold lift in Htag. inversion Htag as [[E Hw]]; clear Htag.
  apply utf8_decode_length in E.
  unfold read in Hb'. inversion Hb' as [[Eb Hw']]; clear Hb'.
  assert (length b' <= 6)%nat as Hlen
    by (rewrite <- Eb, length_take; lia).
  repeat case_decide; subst; simpl in E; try lia. discriminate.
Qed.



(** ** Running in a store that already holds lists *)

Section Shifted.

Variable n : nat.

Lemma shifted_ret {A} (f : A -> A) (a1 a2 : A) :
  a1 = f a2 -> shifted n f (ret a1) (ret a2).
Proof. intros -> s w _. reflexivity. Qed.

Lemma shifted_raise {A} (f : A -> A) (e : exn) :
  shifted n f (raise e) (raise e).
Proof. intros s w _. reflexivity. Qed.

Lemma shifted_lift {A} (r : res A) : shifted n id (lift r) (lift r).
Proof. intros s w _. destruct r; reflexivity. Qed.

Lemma shifted_bind {A B} (f : A -> A) (g : B -> B) (m1 m2 : M A)
    (k1 k2 : A -> M B) :
  shifted n f m1 m2 -> (forall a, shifted n g (k1 (f a)) (k2 a)) ->
  shifted n g (bind m1 k1) (bind m2 k2).
Proof.
  intros Hm Hk s w Hs. unfold bind. rewrite (Hm s w Hs).
  destruct (m2 w) as [[e | a] w1]; simpl.
  - reflexivity.
  - exact (Hk a s w1 Hs).
Qed.

Lemma shifted_for_in {A S} (f : S -> S) (b1 b2 : S -> A -> M S) l :
  (forall s x, shifted n f (b1 (f s) x) (b2 s x)) ->
  forall s, shifted n f (for_in l b1 (f s)) (for_in l b2 s).
Proof.
  intros Hb. induction l as [| x l IH]; intros s; simpl.
  - apply shifted_ret. reflexivity.
  - apply (shifted_bind f f); [apply Hb | exact IH].
Qed.

Lemma shifted_read k : shifted n id (read k) (read k).
Proof. intros s w _. reflexivity. Qed.

Lemma shifted_list_new : shifted n (Nat.add n) list_new list_new.
Proof.
  intros s w Hs. unfold list_new, shift. simpl.
  rewrite length_app, Hs, <- app_assoc. reflexivity.
Qed.

Lemma shifted_list_append l x :
  shifted n id (list_append (n + l) x) (list_append l x).
Proof.
  intros s w Hs. unfold list_append, shift. simpl.
  rewrite <- Hs, alter_app_r. reflexivity.
Qed.

Lemma shifted_read_null_terminated_string :
  shifted n id read_null_terminated_string read_null_terminated_string.
Proof.
  intros s [f l] _. unfold read_null_terminated_string, shift. simpl.
  destruct (null_terminated_chars f) as [cs r]. simpl.
  destruct (utf8_decode cs); reflexivity.
Qed.

Lemma shifted_read_null_terminated_utf16_string :
  shifted n id read_null_terminated_utf16_string
    read_null_terminated_utf16_string.
Proof.
  intros s [f l] _. unfold read_null_terminated_utf16_string, shift. simpl.
  destruct (null_terminated_utf16_chars f) as [cs r]. simpl.
  destruct (utf16_decode cs); reflexivity.
Qed.

Ltac shifted_plain :=
  repeat first
    [ apply shifted_ret; reflexivity
    | apply (shifted_raise id)
    | apply shifted_lift
    | apply shifted_read
    | apply (shifted_bind id id); [| intros ?; unfold id]
    | case_decide ].

Lemma shifted_read_uint16 : shifted n id read_uint16 read_uint16.
Proof. unfold read_uint16. shifted_plain. Qed.

Lemma shifted_read_uint32 : shifted n id read_uint32 read_uint32.
Proof. unfold read_uint32. shifted_plain. Qed.

Lemma shifted_parse_timestamp :
  shifted n id Replay._parse_timestamp Replay._parse_timestamp.
Proof.
  unfold Replay._parse_timestamp.
  apply (shifted_bind id id); [apply shifted_read_uint32 | intros ?].
  apply shifted_ret. reflexivity.
Qed.

Lemma shifted_ReplayTimestamp_parse :
  shifted n id ReplayTimestamp.parse ReplayTimestamp.parse.
Proof.
  unfold ReplayTimestamp.parse.
  repeat (apply (shifted_bind id id); [apply shifted_read_uint16 | intros ?]).
  apply shifted_ret. reflexivity.
Qed.

Lemma shifted_parse_game_type :
  shifted n id Replay._parse_game_type Replay._parse_game_type.
Proof. unfold Replay._parse_game_type. shifted_plain. Qed.

Lemma shifted_parse_slot_raw metadata slot_raw :
  shifted n (ReplayMetadata_move n)
    (ReplayMetadata.parse_slot_raw (ReplayMetadata_move n metadata) slot_raw)
    (ReplayMetadata.parse_slot_raw metadata slot_raw).
Proof.
  unfold ReplayMetadata.parse_slot_raw.
  destruct (negb (truthy slot_raw)); [apply shifted_ret; reflexivity |].
  apply (shifted_bind id); [apply shifted_lift | intros slot].
  apply (shifted_bind id); [apply shifted_list_append | intros _].
  apply shifted_ret. reflexivity.
Qed.

Lemma shifted_parse_entry metadata entry :
  shifted n (ReplayMetadata_move n)
    (ReplayMetadata.parse_entry (ReplayMetadata_move n metadata) entry)
    (ReplayMetadata.parse_entry metadata entry).
Proof.
  unfold ReplayMetadata.parse_entry.
  destruct (split1 (ord "=") entry) as [| key [| value [| ? ?]]];
    try apply shifted_raise.
  repeat case_decide;
    try (apply (shifted_bind id); [apply shifted_lift | intros v]);
    try (apply shifted_ret; reflexivity);
    try apply shifted_raise.
  apply shifted_for_in. intros. apply shifted_parse_slot_raw.
Qed.

Lemma shifted_ReplayMetadata_parse :
  shifted n (ReplayMetadata_move n) ReplayMetadata.parse ReplayMetadata.parse.
Proof.
  unfold ReplayMetadata.parse, ReplayMetadata.new.
  apply (shifted_bind (ReplayMetadata_move n)).
  - apply (shifted_bind (Nat.add n)); [apply shifted_list_new | intros l].
    apply shifted_ret. reflexivity.
  - intros metadata.
    apply (shifted_bind id);
      [apply shifted_read_null_terminated_string | intros raw].
    apply shifted_for_in. intros. apply shifted_parse_entry.
Qed.

Lemma shifted_parse path :
  shifted n (Replay_move n) (Replay._parse path) (Replay._parse path).
Proof.
  unfold Replay._parse.
  apply (shifted_bind id); [apply shifted_parse_game_type | intros g].
  unfold id. case_decide; [apply shifted_raise |].
  repeat first
    [ apply shifted_ret; reflexivity
    | apply (shifted_bind id);
      [ first [ apply shifted_parse_timestamp | apply shifted_read_uint16
              | apply shifted_read_uint32 | apply shifted_read
              | apply shifted_read_null_terminated_utf16_string
              | apply shifted_ReplayTimestamp_parse ]
      | intros ?; unfold id ]
    | apply (shifted_bind (ReplayMetadata_move n));
      [apply shifted_ReplayMetadata_parse | intros ?] ].
Qed.

End Shifted.

(** ** The list of the slots *)

Lemma keeps_lists_ret {A} (a : A) : keeps_lists (ret a).
Proof. intros w r w' H. inversion H. reflexivity. Qed.

Lemma keeps_lists_raise {A} (e : exn) : keeps_lists (@raise A e).
Proof. intros w r w' H. inversion H. reflexivity. Qed.

Lemma keeps_lists_lift {A} (r : res A) : keeps_lists (lift r).
Proof. intros w r' w' H. inversion H. reflexivity. Qed.

Lemma keeps_lists_read n : keeps_lists (read n).
Proof. intros w r w' H. inversion H. reflexivity. Qed.

Lemma keeps_lists_bind {A B} (m : M A) (k : A -> M B) :
  keeps_lists m -> (forall a, keeps_lists (k a)) -> keeps_lists (bind m k).
Proof.
  intros Hm Hk w r w2. unfold bind.
  destruct (m w) as [[e | a] w1] eqn:E; intros H.
  - inversion H; subst. exact (Hm _ _ _ E).
  - rewrite (Hk a _ _ _ H). exact (Hm _ _ _ E).
Qed.

Lemma keeps_lists_read_null_terminated_string :
  keeps_lists read_null_terminated_string.
Proof.
  intros [f l] r w' H. unfold read_null_terminated_string in H. simpl in H.
  destruct (null_terminated_chars f). inversion H. reflexivity.
Qed.

Lemma keeps_lists_read_null_terminated_utf16_string :
  keeps_lists read_null_terminated_utf16_string.
Proof.
  intros [f l] r w' H. unfold read_null_terminated_utf16_string in H.
  simpl in H. destruct (null_terminated_utf16_chars f). inversion H.
  reflexivity.
Qed.

Ltac reads_keep_lists :=
  repeat first
    [ apply keeps_lists_ret
    | apply keeps_lists_raise
    | apply keeps_lists_lift
    | apply keeps_lists_read
    | apply keeps_lists_read_null_terminated_string
    | apply keeps_lists_read_null_terminated_utf16_string
    | apply keeps_lists_bind; [| intros ?]
    | case_decide ].

Lemma keeps_lists_read_uint16 : keeps_lists read_uint16.
Proof. unfold read_uint16. reads_keep_lists. Qed.

Lemma keeps_lists_read_uint32 : keeps_lists read_uint32.
Proof. unfold read_uint32. reads_keep_lists. Qed.

Lemma keeps_lists_length {A} (m : M A) : keeps_lists m -> keeps_length m.
Proof. intros H w r w' E. rewrite (H _ _ _ E). reflexivity. Qed.

Lemma keeps_length_bind {A B} (m : M A) (k : A -> M B) :
  keeps_length m -> (forall a, keeps_length (k a)) -> keeps_length (bind m k).
Proof.
  intros Hm Hk w r w2. unfold bind.
  destruct (m w) as [[e | a] w1] eqn:E; intros H.
  - inversion H; subst. exact (Hm _ _ _ E).
  - rewrite (Hk a _ _ _ H). exact (Hm _ _ _ E).
Qed.

Lemma keeps_length_for_in {A S} (body : S -> A -> M S) (l : list A) :
  (forall s x, keeps_length (body s x)) ->
  forall s, keeps_length (for_in l body s).
Proof.
  intros Hb. induction l as [| x l IH]; intros s; simpl.
  - apply keeps_lists_length, keeps_lists_ret.
  - apply keeps_length_bind; [apply Hb | exact IH].
Qed.

Lemma keeps_length_list_append l x : keeps_length (list_append l x).
Proof.
  intros w r w' H. inversion H. simpl. apply length_alter.
Qed.

Ltac body_keeps_length :=
  repeat first
    [ apply keeps_length_list_append
    | apply keeps_lists_length; solve [reads_keep_lists]
    | apply keeps_length_for_in; intros ? ?
    | apply keeps_length_bind; [| intros ?]
    | case_decide ].

Lemma keeps_length_parse_slot_raw metadata slot_raw :
  keeps_length (ReplayMetadata.parse_slot_raw metadata slot_raw).
Proof.
  unfold ReplayMetadata.parse_slot_raw.
  destruct (negb (truthy slot_raw)); body_keeps_length.
Qed.

Lemma keeps_length_parse_entry metadata entry :
  keeps_length (ReplayMetadata.parse_entry metadata entry).
Proof.
  unfold ReplayMetadata.parse_entry.
  destruct (split1 (ord "=") entry) as [| key [| value [| ? ?]]];
    body_keeps_length.
  apply keeps_length_parse_slot_raw.
Qed.

Lemma keeps_slots_for_in {A} (body : ReplayMetadata.t -> A -> M ReplayMetadata.t)
    (l : list A) :
  (forall x, keeps_slots (fun m => body m x)) ->
  keeps_slots (for_in l body).
Proof.
  intros Hb. induction l as [| x l IH]; intros m w m' w' H; simpl in H.
  - inversion H. reflexivity.
  - apply bind_inr_inv in H as (m1 & w1 & H1 & H2).
    rewrite (IH _ _ _ _ H2). exact (Hb x _ _ _ _ H1).
Qed.

Lemma keeps_slots_parse_slot_raw slot_raw :
  keeps_slots (fun m => ReplayMetadata.parse_slot_raw m slot_raw).
Proof.
  intros m w m' w' H. unfold ReplayMetadata.parse_slot_raw in H.
  destruct (negb (truthy slot_raw)).
  - inversion H. reflexivity.
  - apply bind_inr_inv in H as (slot & w1 & _ & H).
    apply bind_inr_inv in H as (u & w2 & _ & H).
    inversion H. reflexivity.
Qed.

Lemma keeps_slots_parse_entry entry :
  keeps_slots (fun m => ReplayMetadata.parse_entry m entry).
Proof.
  intros m w m' w' H. unfold ReplayMetadata.parse_entry in H.
  destruct (split1 (ord "=") entry) as [| key [| value [| ? ?]]];
    try discriminate.
  repeat case_decide;
    try (apply bind_inr_inv in H as (v & w1 & _ & H));
    try (inversion H; reflexivity).
  exact (keeps_slots_for_in _ _ keeps_slots_parse_slot_raw _ _ _ _ H).
Qed.

(** A successful [ReplayMetadata.parse] returns a reference to the list it
    has added at the end of the store. *)
Lemma ReplayMetadata_parse_slots w m w' :
  ReplayMetadata.parse w = (inr m, w') ->
  ReplayMetadata.slots m = length (lists w)
  /\ length (lists w') = S (length (lists w)).
Proof.
  unfold ReplayMetadata.parse, ReplayMetadata.new. intros H.
  apply bind_inr_inv in H as (m0 & w0 & H0 & H).
  apply bind_inr_inv in H0 as (l & w00 & Hl & H0).
  inversion Hl; subst; clear Hl. inversion H0; subst; clear H0.
  apply bind_inr_inv in H as (raw & w1 & H1 & H).
  apply keeps_lists_read_null_terminated_string in H1.
  pose proof (keeps_slots_for_in _ _ keeps_slots_parse_entry _ _ _ _ H) as Hs.
  pose proof (keeps_length_for_in _ _ keeps_length_parse_entry _ _ _ _ H)
    as Hl.
  rewrite Hs, Hl, H1. simpl. rewrite length_app. simpl. lia.
Qed.

(** ** What a decoded replay holds *)

Lemma byte_val_range x : 0 <= byte_val x < 256.
Proof.
  unfold byte_val. pose proof (Byte.to_N_bounded x). lia.
Qed.

Lemma read_uint16_range w v w' :
  read_uint16 w = (inr v, w') -> 0 <= v < 2 ^ 16.
Proof.
  unfold read_uint16. intros H.
  apply bind_inr_inv in H as (b & w1 & _ & H).
  unfold lift, unpack_H in H. repeat case_match; try discriminate.
  inversion H; subst.
  repeat match goal with x : byte |- _ =>
    pose proof (byte_val_range x); generalize dependent (byte_val x);
    clear x; intros end.
  lia.
Qed.

Lemma read_uint32_range w v w' :
  read_uint32 w = (inr v, w') -> 0 <= v < 2 ^ 32.
Proof.
  unfold read_uint32. intros H.
  apply bind_inr_inv in H as (b & w1 & _ & H).
  unfold lift, unpack_I in H. repeat case_match; try discriminate.
  inversion H; subst.
  repeat match goal with x : byte |- _ =>
    pose proof (byte_val_range x); generalize dependent (byte_val x);
    clear x; intros end.
  lia.
Qed.

Lemma parse_timestamp_range w v w' :
  Replay._parse_timestamp w = (inr v, w') -> 0 <= v < 2 ^ 32.
Proof.
  unfold Replay._parse_timestamp. intros H.
  apply bind_inr_inv in H as (t & w1 & Ht & H). inversion H; subst.
  exact (read_uint32_range _ _ _ Ht).
Qed.

Lemma keeps_lists_parse_timestamp : keeps_lists Replay._parse_timestamp.
Proof. unfold Replay._parse_timestamp, read_uint32. reads_keep_lists. Qed.

(** The slots of a decoded replay are a list of the store, and its fixed
    width integers are within their width. *)
Lemma parse_decoded path w r w' :
  Replay._parse path w = (inr r, w') ->
  (ReplayMetadata.slots (Replay.metadata r) < length (lists w'))%nat
  /\ 0 <= Replay.start_date r < 2 ^ 32
  /\ 0 <= Replay.end_date r < 2 ^ 32
  /\ 0 <= Replay.version_minor r < 2 ^ 16
  /\ 0 <= Replay.version_major r < 2 ^ 16
  /\ 0 <= Replay.game_speed r < 2 ^ 32.
Proof.
  unfold Replay._parse. intros H.
  apply bind_inr_inv in H as (g & w1 & _ & H).
  case_decide; [discriminate |].
  apply bind_inr_inv in H as (start_date & w2 & Hsd & H).
  apply bind_inr_inv in H as (end_date & w3 & Hed & H).
  apply bind_inr_inv in H as (num_timecodes & w4 & _ & H).
  apply bind_inr_inv in H as (zero & w5 & _ & H).
  apply bind_inr_inv in H as (filename & w6 & _ & H).
  apply bind_inr_inv in H as (timestamp & w7 & _ & H).
  apply bind_inr_inv in H as (version & w8 & _ & H).
  apply bind_inr_inv in H as (build_date & w9 & _ & H).
  apply bind_inr_inv in H as (version_minor & w10 & Hmin & H).
  apply bind_inr_inv in H as (version_major & w11 & Hmaj & H).
  apply bind_inr_inv in H as (unknown_hash & w12 & _ & H).
  apply bind_inr_inv in H as (metadata & w13 & Hmeta & H).
  apply bind_inr_inv in H as (unknown1 & w14 & H1 & H).
  apply bind_inr_inv in H as (unknown2 & w15 & H2 & H).
  apply bind_inr_inv in H as (unknown3 & w16 & H3 & H).
  apply bind_inr_inv in H as (unknown4 & w17 & H4 & H).
  apply bind_inr_inv in H as (game_speed & w18 & Hgs & H).
  inversion H; subst; clear H. simpl.
  apply ReplayMetadata_parse_slots in Hmeta as [Hslots Hlen].
  rewrite (keeps_lists_read_uint32 _ _ _ Hgs).
  rewrite (keeps_lists_read_uint32 _ _ _ H4).
  rewrite (keeps_lists_read_uint32 _ _ _ H3).
  rewrite (keeps_lists_read_uint32 _ _ _ H2).
  rewrite (keeps_lists_read_uint16 _ _ _ H1).
  split; [lia |].
  eauto 10 using parse_timestamp_range, read_uint16_range, read_uint32_range.
Qed.

(** ** The two markers that are never recognised *)

Lemma parse_game_type_PL head rest store :
  utf8_decode head <> inl UnicodeDecodeError ->
  utf8_decode head <> inr (py "GENREP") ->
  length head = 6%nat ->
  let w := World (head ++ lit "PL" ++ rest) store in
  let w' := World (drop 4 rest) store in
  Replay._parse_game_type w = (inl UnicodeDecodeError, w')
  \/ exists tag,
      Replay._parse_game_type w
      = (inl (ReplayParserException
                (py "Unrecognized replay type: PL" ++ tag)), w').
Proof.
  intros Hdec Htag Hlen w w'. unfold Replay._parse_game_type.
  assert (read 6 w = (inr head, World (lit "PL" ++ rest) store)) as Hread.
  { unfold read, w. simpl file. simpl lists.
    rewrite take_app_length' by (symmetry; exact Hlen).
    rewrite drop_app_length' by (symmetry; exact Hlen). reflexivity. }
  rewrite (bind_inr _ _ _ _ _ Hread).
  destruct (utf8_decode head) as [e | s] eqn:E.
  { apply utf8_decode_error in E. congruence. }
  erewrite bind_inr by reflexivity.
  case_decide; [congruence |].
  erewrite bind_inr by reflexivity. simpl take. simpl drop.
  destruct (utf8_decode (take 4 rest)) as [e | t] eqn:Et.
  - left. pose proof (utf8_decode_error _ _ Et) as ->.
    apply bind_inl. unfold lift. simpl. rewrite Et. reflexivity.
  - right. exists t.
    erewrite bind_inr by (unfold lift; simpl; rewrite Et; reflexivity).
    repeat (case_decide; [discriminate |]). reflexivity.
Qed.

Lemma init_PL path head rest store :
  utf8_decode head <> inl UnicodeDecodeError ->
  utf8_decode head <> inr (py "GENREP") ->
  length head = 6%nat ->
  Replay.__init__ path (head ++ lit "PL" ++ rest) store
  = (inl UnicodeDecodeError, store)
  \/ exists tag,
      Replay.__init__ path (head ++ lit "PL" ++ rest) store
      = (inl (ReplayParserException
                (py "Unrecognized replay type: PL" ++ tag)), store).
Proof.
  intros Hdec Htag Hlen. unfold Replay.__init__, Replay._parse.
  destruct (parse_game_type_PL head rest store Hdec Htag Hlen)
    as [H | [tag H]]; rewrite (bind_inl _ _ _ _ _ H); eauto.
Qed.

(** ** The tag of a file that decodes *)

(** Text of ASCII characters only is the text of as many ASCII bytes. *)
Lemma utf8_decode_ascii_le n :
  forall bs s, (length bs <= n)%nat -> utf8_decode bs = inr s ->
               Forall (fun c => c < 128) s -> List.map byte_val bs = s.
Proof.
  induction n as [| n IH]; intros bs s Hn H Hs.
  - destruct bs; [| simpl in Hn; lia]. inversion H. reflexivity.
  - destruct bs as [| x0 r0]; [inversion H; reflexivity |].
    simpl in Hn. cbn [utf8_decode] in H. cbv zeta in H.
    repeat (case_match; try discriminate);
      apply rbind_inr_inv in H as (s0 & E & H); inversion H; subst;
      apply Forall_cons in Hs as [Hc Hs];
      try (simpl; f_equal; apply IH; [lia | assumption | assumption]);
      exfalso; unfold continuation in *;
      repeat match goal with
             | H : context [if ?c then _ else _] |- _ => destruct c eqn:?
             end;
      repeat match goal with
             | H : _ && _ = true |- _ => apply andb_true_iff in H as [? ?]
             end;
      lia.
Qed.

Lemma byte_of_val x z : byte_val x = z -> Byte.of_N (Z.to_N z) = Some x.
Proof.
  intros <-. unfold byte_val. rewrite N2Z.id. apply Byte.of_to_N.
Qed.

Lemma utf8_decode_GENREP b :
  utf8_decode b = inr (py "GENREP") -> b = lit "GENREP".
Proof.
  intros H.
  apply (utf8_decode_ascii_le (length b)) in H;
    [| lia | repeat constructor].
  do 6 (destruct b as [| ? b]; [discriminate |]).
  destruct b; [| discriminate].
  inversion H.
  repeat match goal with
         | H : byte_val ?x = _ |- _ =>
             apply byte_of_val in H; vm_compute in H; inversion H; subst x
         end.
  reflexivity.
Qed.

(** A file that decodes starts with the six bytes of the tag. *)
Lemma parse_starts_with_tag path full store r w' :
  Replay._parse path (World full store) = (inr r, w') ->
  take 6 full = lit "GENREP".
Proof.
  unfold Replay._parse. intros H.
  apply bind_inr_inv in H as (g & w1 & Hg & _).
  pose proof (parse_game_type_GENERALS _ _ _ Hg) as ->.
  unfold Replay._parse_game_type in Hg.
  apply bind_inr_inv in Hg as (b & w2 & Hb & Hg).
  apply bind_inr_inv in Hg as (game_type & w3 & Ht & Hg).
  inversion Hb; subst; clear Hb. simpl in Ht.
  unfold lift in Ht. inversion Ht as [[E Hw]]; clear Ht.
  case_decide as Htag.
  - subst game_type. exact (utf8_decode_GENREP _ E).
  - apply bind_inr_inv in Hg as (b' & w4 & _ & Hg).
    apply bind_inr_inv in Hg as (tag & w5 & _ & Hg).
    repeat case_decide; discriminate.
Qed.

(** ** The store does not matter *)

(** The decode of a file in any store is the decode in the empty store,
    moved behind the lists of the store. *)
Lemma parse_in_store path bs store :
  Replay._parse path (World bs store)
  = (rmap (Replay_move (length store))
          (fst (Replay._parse path (World bs []))),
     shift store (snd (Replay._parse path (World bs [])))).
Proof.
  rewrite <- (shifted_parse (length store) path store (World bs []) eq_refl).
  unfold shift. cbn [file lists]. rewrite app_nil_r. reflexivity.
Qed.

(** ** Metadata segments *)

Lemma split1_without sep s : sep ∉ s -> split1 sep s = [s].
Proof.
  induction s as [| c s IH]; intros H; simpl.
  - reflexivity.
  - apply not_elem_of_cons in H as [Hc Hs].
    destruct (Z.eqb_spec c sep) as [-> | _]; [congruence |].
    rewrite (IH Hs). reflexivity.
Qed.

Lemma parse_entry_without_equals metadata entry w :
  ord "=" ∉ entry ->
  ReplayMetadata.parse_entry metadata entry w = (inl ValueError, w).
Proof.
  intros H. unfold ReplayMetadata.parse_entry.
  rewrite (split1_without _ _ H). reflexivity.
Qed.

(** A loop fails when one of its elements fails in every state. *)
Lemma for_in_fails {A S} (body : S -> A -> M S) pre x post :
  (forall s w, exists e w', body s x w = (inl e, w')) ->
  forall s w, exists e w', for_in (pre ++ x :: post) body s w = (inl e, w').
Proof.
  intros Hx. induction pre as [| y pre IH]; intros s w; simpl.
  - destruct (Hx s w) as (e & w' & E). exists e, w'. apply bind_inl. exact E.
  - unfold bind. destruct (body s y w) as [[e | s'] w'] eqn:E.
    + eauto.
    + apply IH.
Qed.

Lemma for_in_reaches pre seg post :
  Forall accepted pre -> ord "=" ∉ seg ->
  forall metadata w, exists w',
    for_in (pre ++ seg :: post) ReplayMetadata.parse_entry metadata w
    = (inl ValueError, w').
Proof.
  intros Hpre Hseg. induction Hpre as [| y pre Hy _ IH]; intros m w; simpl.
  - exists w. apply bind_inl. apply parse_entry_without_equals. exact Hseg.
  - destruct (Hy m w) as (m' & w' & E).
    rewrite (bind_inr _ _ _ _ _ E). apply IH.
Qed.

(** A loop runs its elements in order and stops at the first that
    fails: either all of them succeed, or the loop fails as the first
    failing element does, in the state the elements before it leave. *)
Lemma for_in_app {A S} (body : S -> A -> M S) l1 l2 :
  forall s w,
    for_in (l1 ++ l2) body s w
    = bind (for_in l1 body s) (for_in l2 body) w.
Proof.
  induction l1 as [| x l1 IH]; intros s w; simpl.
  - reflexivity.
  - unfold bind in *. destruct (body s x w) as [[e | s'] w'].
    + reflexivity.
    + apply IH.
Qed.

Lemma for_in_outcome {A S} (body : S -> A -> M S) l :
  forall s w,
    (exists s' w', for_in l body s w = (inr s', w'))
    \/ exists done bad later s1 w1 e w2,
        l = done ++ bad :: later
        /\ for_in done body s w = (inr s1, w1)
        /\ body s1 bad w1 = (inl e, w2)
        /\ for_in l body s w = (inl e, w2).
Proof.
  induction l as [| x l IH]; intros s w.
  - left. eexists _, _. reflexivity.
  - cbn [for_in]. unfold bind.
    destruct (body s x w) as [[e | s'] w'] eqn:E.
    + right. exists [], x, l, s, w, e, w'. auto.
    + destruct (IH s' w')
        as [(s2 & w2 & H)
           | (done & bad & later & s1 & w1 & e & w2 & -> & Hd & Hb & H)].
      * left. eauto.
      * right. exists (x :: done), bad, later, s1, w1, e, w2.
        split; [reflexivity |]. split; [| split; [exact Hb | exact H]].
        cbn [for_in]. unfold bind. rewrite E. exact Hd.
Qed.

(** ** Text without surrogates *)










Lemma index_inr {A} (l : list A) i x : index l i = inr x -> l !! i = Some x.
Proof. unfold index. destruct (l !! i); intros H; congruence. Qed.








(** ** The rows of the slots table *)







(** * The claims *)

(** C1 (defect of the code).  The claim asks for the unsupported-variant
    failure on a file that starts with BFMEREPL or BFME2RPL.  The code
    cannot give it: such a file fails to decode as text, or fails with
    "Unrecognized replay type: " followed by the text of its bytes 7 to 12,
    which starts with PL; and on no file at all does [_parse_game_type]
    return BFME or BFME2. *)
Theorem bfme_markers_are_unrecognized path rest store :
  (Replay.__init__ path (lit "BFMEREPL" ++ rest) store
   = (inl UnicodeDecodeError, store)
   \/ exists tag,
       Replay.__init__ path (lit "BFMEREPL" ++ rest) store
       = (inl (ReplayParserException
                 (py "Unrecognized replay type: PL" ++ tag)), store))
  /\ (Replay.__init__ path (lit "BFME2RPL" ++ rest) store
      = (inl UnicodeDecodeError, store)
      \/ exists tag,
          Replay.__init__ path (lit "BFME2RPL" ++ rest) store
          = (inl (ReplayParserException
                    (py "Unrecognized replay type: PL" ++ tag)), store))
  /\ Replay.__init__ path (lit "BFMEREPL") store
     = (inl (ReplayParserException (py "Unrecognized replay type: PL")),
        store)
  /\ forall w, fst (Replay._parse_game_type w) <> inr BFME
               /\ fst (Replay._parse_game_type w) <> inr BFME2.
Proof.
  split; [| split; [| split]].
  - apply (init_PL path (lit "BFMERE") rest store); [discriminate .. | ].
    reflexivity.
  - apply (init_PL path (lit "BFME2R") rest store); [discriminate .. | ].
    reflexivity.
  - reflexivity.
  - intros w. destruct (Replay._parse_game_type w) as [[e | g] w'] eqn:E;
      simpl; [split; discriminate |].
    apply parse_game_type_GENERALS in E. subst g. split; discriminate.
Qed.

(** C2 (defect of the code).  The claim asks for MEDIUM on [M] and HARD on
    [H], and for the failure to show the character at offset 1.  The code
    returns EASY for the three markers, never MEDIUM or HARD, and its
    failure shows the character at offset 0. *)
Theorem read_slot_difficulty_collapses :
  ReplaySlot._read_slot_difficulty (py "CE,2,3,4,0") = inr EASY
  /\ ReplaySlot._read_slot_difficulty (py "CM,2,3,4,0") = inr EASY
  /\ ReplaySlot._read_slot_difficulty (py "CH,2,3,4,0") = inr EASY
  /\ ReplaySlot._read_slot_difficulty (py "CZ,2,3,4,0")
     = inl (ReplayParserException (py "invalid replay slot difficulty: C"))
  /\ forall raw,
       ReplaySlot._read_slot_difficulty raw <> inr MEDIUM
       /\ ReplaySlot._read_slot_difficulty raw <> inr HARD.
Proof.
  repeat split; try reflexivity;
    unfold ReplaySlot._read_slot_difficulty;
    destruct (index raw 1) as [e | c]; simpl; try discriminate;
    repeat (case_match; try discriminate);
    destruct (index raw 0); simpl; discriminate.
Qed.

(** C3, the claim as it is written, is false: the first slot of the
    example does not have user id 0xAB, colour 1 and team 1. *)
Lemma metadata_example_as_stated_fails :
  ~ exists m w s1 s2,
      ReplayMetadata.parse (World metadata_example []) = (inr m, w)
      /\ ReplayMetadata.map_crc m = 255
      /\ ReplayMetadata.map_size m = 100
      /\ ReplayMetadata.starting_credits m = 5000
      /\ lists w !! ReplayMetadata.slots m = Some [s1; s2]
      /\ ReplaySlot.slot_type s1 = HUMAN
      /\ ReplaySlot.user_id s1 = 0xAB
      /\ ReplaySlot.color s1 = 1
      /\ ReplaySlot.faction s1 = 1
      /\ ReplaySlot.star_position s1 = 0
      /\ ReplaySlot.team s1 = 1
      /\ ReplaySlot.slot_type s2 = EMPTY.
Proof.
  intros (m & w & s1 & s2 & H & _ & _ & _ & Hl & _ & Hid & _).
  vm_compute in H. inversion H; subst; clear H.
  vm_compute in Hl. inversion Hl; subst; clear Hl.
  vm_compute in Hid. discriminate.
Qed.

(** C3 (amended).  Decoding the metadata text
    "US=1;MC=ff;MS=100;SC=5000;S=H0xAB,1,1,1,0,1,0,0:X:" succeeds in any
    store and before any following bytes, and yields map CRC 255, map size
    100, starting credits 5000 and a new list of exactly two slots: a HUMAN
    slot with name "0xAB", user id 1, colour 0, faction 1, star position 0
    and team 0, then an EMPTY slot. *)
Theorem metadata_example_decodes rest store :
  ReplayMetadata.parse (World (metadata_example ++ x00 :: rest) store)
  = (inr (ReplayMetadata.mk 0 [] 255 100 0 0 0 5000 (inl 0) (length store)),
     World rest
       (store ++ [[ReplaySlot.mk HUMAN (py "0xAB") 1 None 0 1 0 0;
                   ReplaySlot.new EMPTY]])).
Proof.
  assert (World (metadata_example ++ x00 :: rest) store
          = shift store (World (metadata_example ++ x00 :: rest) [])) as ->
    by (unfold shift; cbn [file lists]; rewrite app_nil_r; reflexivity).
  rewrite (shifted_ReplayMetadata_parse (length store) store _ eq_refl).
  assert (ReplayMetadata.parse (World (metadata_example ++ x00 :: rest) [])
          = (inr (ReplayMetadata.mk 0 [] 255 100 0 0 0 5000 (inl 0) 0),
             World rest [[ReplaySlot.mk HUMAN (py "0xAB") 1 None 0 1 0 0;
                          ReplaySlot.new EMPTY]])) as E
    by (vm_compute; reflexivity).
  rewrite E. unfold shift, ReplayMetadata_move. cbn.
  rewrite Nat.add_0_r. reflexivity.
Qed.

(** C4, the claim as it is written, is false: the token "C,E,2,3,4,0" is
    not parsed as a COMPUTER slot, its character at offset 1 being a
    comma. *)
Lemma computer_token_as_stated_fails :
  ReplaySlot.parse (py "C,E,2,3,4,0")
  <> inr (ReplaySlot.mk COMPUTER [] 0 (Some EASY) 2 3 4 0)
  /\ ReplaySlot.parse (py "C,E,2,3,4,0")
     = inl (ReplayParserException (py "invalid replay slot difficulty: C")).
Proof. split; [discriminate | reflexivity]. Qed.

(** C4 (amended).  Parsing the slot token "CE,2,3,4,0" yields a COMPUTER
    slot with difficulty EASY, colour 2, faction 3, start position 4 and
    team 0; the token "C,E,2,3,4,0" fails with the invalid-slot-difficulty
    failure; the token "X" yields an EMPTY slot whose other fields hold the
    defaults; and any token whose first character is Q fails with the
    invalid-slot-type failure. *)
Theorem slot_token_examples :
  ReplaySlot.parse (py "CE,2,3,4,0")
  = inr (ReplaySlot.mk COMPUTER [] 0 (Some EASY) 2 3 4 0)
  /\ ReplaySlot.parse (py "C,E,2,3,4,0")
     = inl (ReplayParserException (py "invalid replay slot difficulty: C"))
  /\ ReplaySlot.parse (py "X") = inr (ReplaySlot.new EMPTY)
  /\ forall rest,
       ReplaySlot.parse (ord "Q" :: rest)
       = inl (ReplayParserException (py "invalid replay slot type: Q")).
Proof. repeat split. Qed.

(** C5 (defect of the code).  For the key [M] the value "42mymap.map" is
    split into the prefix 42 and the path "mymap.map"; but for a value with
    no leading decimal digit the claim asks for the prefix 0 and the whole
    value as path, and the code raises [ValueError], the empty run of
    digits being handed to [int]. *)
Theorem mapfile_without_digits_raises metadata w :
  ReplayMetadata.parse_entry metadata (py "M=42mymap.map") w
  = (inr (ReplayMetadata.set_mapfile (py "mymap.map")
            (ReplayMetadata.set_mapfile_unknown_int 42 metadata)), w)
  /\ forall value,
       ReplayMetadata.int_end value = 0%nat ->
       ReplayMetadata.parse_entry metadata (py "M=" ++ value) w
       = (inl ValueError, w).
Proof.
  split; [reflexivity |]. intros value H.
  unfold ReplayMetadata.parse_entry.
  change (split1 (ord "=") (py "M=" ++ value)) with [py "M"; value].
  cbv iota. repeat (case_decide; try discriminate); [| congruence].
  rewrite H. reflexivity.
Qed.

Lemma mapfile_without_digits_raises_witness :
  ReplayMetadata.parse_entry (ReplayMetadata.mk 0 [] 0 0 0 0 0 0 (inl 0) 0)
    (py "M=mymap.map") (World [] [[]])
  = (inl ValueError, World [] [[]]).
Proof.
  apply (proj2 (mapfile_without_digits_raises
                  (ReplayMetadata.mk 0 [] 0 0 0 0 0 0 (inl 0) 0)
                  (World [] [[]])) (py "mymap.map")).
  reflexivity.
Defined.




(** C7, the claim as it is written, is false: the colour an EMPTY slot
    holds is the integer 0, the very value a COMPUTER slot holds when its
    token says 0. *)
Lemma empty_slot_fields_as_stated_fails :
  ~ forall raw s raw' s',
      ReplaySlot.parse raw = inr s ->
      ReplaySlot.slot_type s = EMPTY ->
      ReplaySlot.parse raw' = inr s' ->
      ReplaySlot.slot_type s' <> EMPTY ->
      ReplaySlot.color s <> ReplaySlot.color s'.
Proof.
  intros H.
  apply (H (py "X") (ReplaySlot.new EMPTY) (py "CE,0,0,0,0")
           (ReplaySlot.mk COMPUTER [] 0 (Some EASY) 0 0 0 0));
    (reflexivity || discriminate).
Qed.

(** C7 (amended).  For every parsed slot, the fields that are not
    meaningful for its variant hold the defaults of the record: an EMPTY
    slot has the empty name, user id 0, no difficulty, and colour, faction,
    start position and team 0; a COMPUTER slot has the empty name and user
    id 0; a HUMAN slot has no difficulty.  Only the difficulty is
    represented as absent. *)
Theorem slot_fields_by_type raw s :
  ReplaySlot.parse raw = inr s ->
  match ReplaySlot.slot_type s with
  | EMPTY => s = ReplaySlot.new EMPTY
  | COMPUTER =>
      ReplaySlot.human_name s = [] /\ ReplaySlot.user_id s = 0
      /\ ReplaySlot.computer_difficulty s <> None
  | HUMAN => ReplaySlot.computer_difficulty s = None
  end.
Proof.
  unfold ReplaySlot.parse. intros H.
  apply rbind_inr_inv in H as (slot_type & _ & H).
  destruct slot_type.
  - inversion H. reflexivity.
  - repeat (apply rbind_inr_inv in H as (? & _ & H)).
    inversion H. reflexivity.
  - repeat (apply rbind_inr_inv in H as (? & _ & H)).
    inversion H. simpl. repeat split. discriminate.
Qed.

Lemma slot_fields_by_type_witness :
  match ReplaySlot.slot_type (ReplaySlot.mk COMPUTER [] 0 (Some EASY) 2 3 4 0)
  with
  | EMPTY => ReplaySlot.mk COMPUTER [] 0 (Some EASY) 2 3 4 0
             = ReplaySlot.new EMPTY
  | COMPUTER =>
      ReplaySlot.human_name (ReplaySlot.mk COMPUTER [] 0 (Some EASY) 2 3 4 0)
      = []
      /\ ReplaySlot.user_id (ReplaySlot.mk COMPUTER [] 0 (Some EASY) 2 3 4 0)
         = 0
      /\ ReplaySlot.computer_difficulty
           (ReplaySlot.mk COMPUTER [] 0 (Some EASY) 2 3 4 0) <> None
  | HUMAN =>
      ReplaySlot.computer_difficulty
        (ReplaySlot.mk COMPUTER [] 0 (Some EASY) 2 3 4 0) = None
  end.
Proof.
  apply (slot_fields_by_type (py "CE,2,3,4,0")). reflexivity.
Defined.

(** C8.  Decoding the same bytes twice, the second time in the store the
    first decode has left, gives two records equal field by field (the
    lists of slots compared by their elements) or twice the same failure;
    and the second decode leaves the list of the first record as it was. *)
Theorem decode_twice path bs store :
  let '(r1, store1) := Replay.__init__ path bs store in
  let '(r2, store2) := Replay.__init__ path bs store1 in
  match r1, r2 with
  | inr a, inr b =>
      Replay_fields_eq store1 a store2 b
      /\ store2 !! ReplayMetadata.slots (Replay.metadata a)
         = store1 !! ReplayMetadata.slots (Replay.metadata a)
  | inl e1, inl e2 => e1 = e2
  | _, _ => False
  end.
Proof.
  unfold Replay.__init__.
  rewrite (parse_in_store path bs store).
  destruct (Replay._parse path (World bs [])) as [[e | a] w1] eqn:E;
    cbn [fst snd rmap shift lists].
  - rewrite parse_in_store, E. reflexivity.
  - rewrite parse_in_store, E. cbn [fst snd rmap shift lists].
    apply parse_decoded in E as (Hvalid & _).
    unfold Replay_fields_eq, ReplayMetadata_eq, Replay_move,
      ReplayMetadata_move. cbn.
    repeat split.
    + rewrite !lookup_app_r by lia. f_equal. rewrite length_app. lia.
    + apply lookup_app_l. rewrite length_app. lia.
Qed.

(** C9, the claim as it is written, is false: in "ZZ=1;foo" the segment
    "foo" has no "=", and parsing fails on the key ZZ before it, with the
    failure of the parser for an unexpected key. *)
Lemma segment_without_equals_as_stated_fails :
  ~ forall w raw pre seg post,
      utf8_decode (fst (null_terminated_chars (file w))) = inr raw ->
      List.filter truthy (split (ord ";") raw) = pre ++ seg :: post ->
      ord "=" ∉ seg ->
      fst (ReplayMetadata.parse w) = inl ValueError.
Proof.
  intros H.
  specialize (H (World (lit "ZZ=1;foo") []) (py "ZZ=1;foo") [py "ZZ=1"]
                (py "foo") [] eq_refl eq_refl).
  assert (ord "=" ∉ py "foo") as Hseg.
  { intros Hin. vm_compute in Hin.
    repeat (apply elem_of_cons in Hin as [Hin | Hin]; [discriminate |]).
    inversion Hin. }
  specialize (H Hseg). vm_compute in H. discriminate.
Qed.

(** C9 (amended).  For every metadata block that decodes and contains a
    non-empty semicolon-separated segment with no "=", metadata parsing
    fails, and the first failure wins.  The segments before that one are
    run in order, from the fresh metadata: when all of them succeed (so
    when each of them is accepted whatever the state), the failure is the
    untyped [ValueError] of the key/value unpacking; otherwise the
    failure is the one of the first of them that fails, raised in the
    state the segments before it have left. *)
Theorem segment_without_equals_raises w raw pre seg post :
  utf8_decode (fst (null_terminated_chars (file w))) = inr raw ->
  List.filter truthy (split (ord ";") raw) = pre ++ seg :: post ->
  ord "=" ∉ seg ->
  let metadata :=
    ReplayMetadata.mk 0 [] 0 0 0 0 0 0 (inl 0) (length (lists w)) in
  let w0 := World (snd (null_terminated_chars (file w))) (lists w ++ [[]]) in
  (Forall accepted pre -> fst (ReplayMetadata.parse w) = inl ValueError)
  /\ ((exists metadata' w',
         for_in pre ReplayMetadata.parse_entry metadata w0
         = (inr metadata', w')
         /\ ReplayMetadata.parse w = (inl ValueError, w'))
      \/ exists done bad later metadata' w1 e w2,
          pre = done ++ bad :: later
          /\ for_in done ReplayMetadata.parse_entry metadata w0
             = (inr metadata', w1)
          /\ ReplayMetadata.parse_entry metadata' bad w1 = (inl e, w2)
          /\ ReplayMetadata.parse w = (inl e, w2)).
Proof.
  intros Hraw Hsplit Hseg metadata w0.
  assert (ReplayMetadata.parse w
          = for_in (pre ++ seg :: post) ReplayMetadata.parse_entry
              metadata w0) as Hparse.
  { unfold ReplayMetadata.parse, ReplayMetadata.new.
    erewrite bind_inr by reflexivity.
    erewrite bind_inr.
    - cbv zeta. rewrite Hsplit. reflexivity.
    - unfold read_null_terminated_string. cbn [file lists].
      destruct (null_terminated_chars (file w)) as [chars rest].
      simpl in Hraw. rewrite Hraw. reflexivity. }
  rewrite Hparse. split.
  - intros Hpre.
    edestruct (for_in_reaches pre seg post Hpre Hseg) as (w' & E).
    rewrite E. reflexivity.
  - rewrite for_in_app.
    destruct (for_in_outcome ReplayMetadata.parse_entry pre metadata w0)
      as [(metadata' & w' & E)
         | (done & bad & later & metadata' & w1 & e & w2 & Hpre & Hd & Hb
            & E)].
    + left. exists metadata', w'. split; [exact E |].
      rewrite (bind_inr _ _ _ _ _ E). cbn [for_in].
      apply bind_inl. apply parse_entry_without_equals. exact Hseg.
    + right. exists done, bad, later, metadata', w1, e, w2.
      split; [exact Hpre |]. split; [exact Hd |]. split; [exact Hb |].
      apply bind_inl. exact E.
Qed.

Lemma segment_without_equals_raises_witness :
  let w := World (lit "US=1;foo") [] in
  let metadata :=
    ReplayMetadata.mk 0 [] 0 0 0 0 0 0 (inl 0) (length (lists w)) in
  let w0 := World (snd (null_terminated_chars (file w))) (lists w ++ [[]]) in
  (Forall accepted [py "US=1"] ->
   fst (ReplayMetadata.parse w) = inl ValueError)
  /\ ((exists metadata' w',
         for_in [py "US=1"] ReplayMetadata.parse_entry metadata w0
         = (inr metadata', w')
         /\ ReplayMetadata.parse w = (inl ValueError, w'))
      \/ exists done bad later metadata' w1 e w2,
          [py "US=1"] = done ++ bad :: later
          /\ for_in done ReplayMetadata.parse_entry metadata w0
             = (inr metadata', w1)
          /\ ReplayMetadata.parse_entry metadata' bad w1 = (inl e, w2)
          /\ ReplayMetadata.parse w = (inl e, w2)).
Proof.
  apply (segment_without_equals_raises (World (lit "US=1;foo") [])
           (py "US=1;foo") [py "US=1"] (py "foo") []).
  - reflexivity.
  - reflexivity.
  - intros Hin. vm_compute in Hin.
    repeat (apply elem_of_cons in Hin as [Hin | Hin]; [discriminate |]).
    inversion Hin.
Defined.




(** * Further properties *)

(** ** The tables under [add_replay] *)

Lemma bind_int_inr v v' : ReplayDatabase.bind_int v = inr v' -> v' = v.
Proof.
  unfold ReplayDatabase.bind_int. case_match; congruence.
Qed.

Lemma bind_int_inl v e : ReplayDatabase.bind_int v = inl e -> e = OverflowError.
Proof.
  unfold ReplayDatabase.bind_int. case_match; congruence.
Qed.

Lemma bind_text_inr v v' : ReplayDatabase.bind_text v = inr v' -> v' = v.
Proof.
  unfold ReplayDatabase.bind_text. case_match; congruence.
Qed.

Lemma bind_text_inl v e :
  ReplayDatabase.bind_text v = inl e -> e = UnicodeEncodeError.
Proof.
  unfold ReplayDatabase.bind_text. case_match; congruence.
Qed.

Ltac bound_values H :=
  repeat (let v := fresh "v" in
          let E := fresh "E" in
          apply rbind_inr_inv in H as (v & E & H);
          first [apply bind_int_inr in E | apply bind_text_inr in E];
          subst v).

Ltac binding_failure H :=
  repeat (let v := fresh "v" in
          apply rbind_inl_inv in H as [H | (v & _ & H)];
          [first [left; exact (bind_int_inl _ _ H)
                 | right; exact (bind_text_inl _ _ H)] |]);
  discriminate.

Lemma slots_params_inr replay_id slot row :
  ReplayDatabase.slots_params replay_id slot = inr row ->
  row = slots_row_of replay_id slot.
Proof.
  unfold ReplayDatabase.slots_params. intros H. bound_values H.
  inversion H; subst. reflexivity.
Qed.

Lemma slots_params_inl replay_id slot e :
  ReplayDatabase.slots_params replay_id slot = inl e ->
  e = OverflowError \/ e = UnicodeEncodeError.
Proof.
  unfold ReplayDatabase.slots_params. intros H. binding_failure H.
Qed.

Lemma replays_params_inl replay e :
  ReplayDatabase.replays_params replay = inl e ->
  e = OverflowError \/ e = UnicodeEncodeError.
Proof.
  unfold ReplayDatabase.replays_params. intros H. binding_failure H.
Qed.

Lemma replays_params_id replay row :
  ReplayDatabase.replays_params replay = inr row ->
  forall new_id, ReplayDatabase.id (row new_id) = new_id.
Proof.
  unfold ReplayDatabase.replays_params. intros H.
  repeat (let v := fresh "v" in apply rbind_inr_inv in H as (v & _ & H)).
  inversion H; subst. reflexivity.
Qed.

(** Whatever its outcome, the loop over the slots appends rows of slots of
    the list that are not EMPTY, in their order, and touches nothing
    else. *)
Lemma insert_slots_appends replay_id l :
  forall self, exists done,
    done `prefix_of` List.filter occupied l
    /\ snd (ReplayDatabase.insert_slots replay_id l self)
       = ReplayDatabase.mk (ReplayDatabase.replays self)
           (ReplayDatabase.slots self
            ++ List.map (slots_row_of replay_id) done)
    /\ (fst (ReplayDatabase.insert_slots replay_id l self) = inr tt
        /\ done = List.filter occupied l
        \/ exists e,
            fst (ReplayDatabase.insert_slots replay_id l self) = inl e
            /\ (e = OverflowError \/ e = UnicodeEncodeError)).
Proof.
  induction l as [| slot l IH]; intros self.
  - exists []. split; [apply prefix_nil |]. simpl. rewrite app_nil_r.
    destruct self. auto.
  - cbn [ReplayDatabase.insert_slots List.filter].
    assert (occupied slot
            = negb (ReplaySlotType_value (ReplaySlot.slot_type slot) =? 0))
      as -> by reflexivity.
    destruct (ReplaySlotType_value (ReplaySlot.slot_type slot) =? 0);
      cbn [negb].
    + apply IH.
    + destruct (ReplayDatabase.slots_params replay_id slot) as [e | row]
        eqn:E.
      * exists []. split; [apply prefix_nil |]. simpl. rewrite app_nil_r.
        apply slots_params_inl in E. destruct self. eauto.
      * apply slots_params_inr in E. subst row.
        destruct (IH (ReplayDatabase.mk (ReplayDatabase.replays self)
                        (ReplayDatabase.slots self
                         ++ [slots_row_of replay_id slot])))
          as (done & Hpre & Hsnd & Hfst).
        exists (slot :: done). split; [apply prefix_cons; exact Hpre |].
        rewrite Hsnd. simpl. rewrite <- app_assoc. split; [reflexivity |].
        destruct Hfst as [[Hfst ->] | Hfst]; auto.
Qed.

Lemma fold_right_max_above i ids j :
  j ∈ i :: ids -> j <= fold_right Z.max i ids.
Proof.
  revert i. induction ids as [| k ids IH]; intros i H; simpl.
  - apply list_elem_of_singleton in H. lia.
  - apply elem_of_cons in H as [-> | H].
    + specialize (IH i (list_elem_of_here _ _)). lia.
    + apply elem_of_cons in H as [-> | H]; [lia |].
      specialize (IH i (list_elem_of_further _ _ _ H)). lia.
Qed.

(** The id the database gives a new row is not in the table. *)
Lemma next_id_fresh rows pick new_id :
  ReplayDatabase.next_id rows pick = inr new_id ->
  new_id ∉ List.map ReplayDatabase.id rows.
Proof.
  unfold ReplayDatabase.next_id.
  destruct (List.map ReplayDatabase.id rows) as [| i ids].
  - intros _. apply not_elem_of_nil.
  - cbv zeta.
    destruct (Z.ltb_spec (fold_right Z.max i ids) (2 ^ 63 - 1)) as [_ | _].
    + intros Hn Hin. inversion Hn; subst.
      apply fold_right_max_above in Hin. lia.
    + destruct ((0 <? pick) && (pick <=? 2 ^ 62)
                && negb (bool_decide (pick ∈ i :: ids))) eqn:Ep;
        [| discriminate].
      intros Hn. inversion Hn; subst.
      apply andb_true_iff in Ep as [_ Ep].
      apply negb_true_iff, bool_decide_eq_false in Ep. exact Ep.
Qed.

Lemma next_id_inl rows pick e :
  ReplayDatabase.next_id rows pick = inl e -> e = OperationalError.
Proof.
  unfold ReplayDatabase.next_id.
  destruct (List.map ReplayDatabase.id rows) as [| i ids]; [discriminate |].
  cbv zeta. repeat case_match; congruence.
Qed.

(** The outcomes of [add_replay]: nothing is inserted and the call has
    raised; or one row with a new id is added to the replays table and
    rows for the first occupied slots to the slots table, all of them for
    a success. *)
Lemma add_replay_outcomes pick self replay store :
  let slots := store !!! ReplayMetadata.slots (Replay.metadata replay) in
  (exists e,
      ReplayDatabase.add_replay pick self replay store = (inl e, self)
      /\ (e = OverflowError \/ e = UnicodeEncodeError
          \/ e = OperationalError))
  \/ exists new_id row done,
      ReplayDatabase.next_id (ReplayDatabase.replays self) pick = inr new_id
      /\ ReplayDatabase.id row = new_id
      /\ done `prefix_of` List.filter occupied slots
      /\ snd (ReplayDatabase.add_replay pick self replay store)
         = ReplayDatabase.mk (ReplayDatabase.replays self ++ [row])
             (ReplayDatabase.slots self
              ++ List.map (slots_row_of new_id) done)
      /\ (fst (ReplayDatabase.add_replay pick self replay store) = inr tt
          /\ done = List.filter occupied slots
          \/ exists e,
              fst (ReplayDatabase.add_replay pick self replay store) = inl e
              /\ (e = OverflowError \/ e = UnicodeEncodeError)).
Proof.
  intros slots. unfold ReplayDatabase.add_replay. fold slots.
  destruct (ReplayDatabase.replays_params replay) as [e | row] eqn:E.
  - left. apply replays_params_inl in E. exists e. tauto.
  - destruct (ReplayDatabase.next_id (ReplayDatabase.replays self) pick)
      as [e | new_id] eqn:Eid.
    + left. apply next_id_inl in Eid. exists e. tauto.
    + right.
      destruct (insert_slots_appends new_id slots
                  (ReplayDatabase.mk
                     (ReplayDatabase.replays self ++ [row new_id])
                     (ReplayDatabase.slots self)))
        as (done & Hpre & Hsnd & Hfst).
      exists new_id, (row new_id), done.
      split; [reflexivity |].
      split; [exact (replays_params_id _ _ E new_id) |]. auto.
Qed.

Lemma add_replay_keeps_db_ok pick self replay store :
  db_ok self ->
  db_ok (snd (ReplayDatabase.add_replay pick self replay store)).
Proof.
  intros [Hnodup Hrows].
  destruct (add_replay_outcomes pick self replay store)
    as [(e & E & _) | (new_id & row & done & Hnew & Hid & _ & Hsnd & _)].
  - rewrite E. split; assumption.
  - rewrite Hsnd. unfold db_ok. simpl. rewrite map_app. simpl. split.
    + apply NoDup_app. split; [exact Hnodup |]. split.
      * intros x Hx Hin. apply list_elem_of_singleton in Hin. subst x.
        rewrite Hid in Hx. exact (next_id_fresh _ _ _ Hnew Hx).
      * apply NoDup_singleton.
    + apply Forall_app. split.
      * eapply Forall_impl; [exact Hrows |]. intros r Hr.
        apply elem_of_app. left. exact Hr.
      * apply Forall_forall. intros r Hr.
        apply list_elem_of_In, in_map_iff in Hr as (slot & <- & _).
        apply elem_of_app. right. simpl. rewrite Hid.
        apply list_elem_of_singleton. reflexivity.
Qed.









(** ** The batch driver *)



Lemma process_keeps_db_ok pick st sample st' :
  process pick st sample = inr st' -> db_ok (db st) -> db_ok (db st').
Proof.
  destruct sample as [sample_path contents]. unfold process. intros H Hok.
  destruct (Replay.__init__ sample_path contents (store st))
    as [[e | replay] store'] eqn:E.
  - apply rbind_inr_inv in H as (f & _ & H). inversion H; subst. exact Hok.
  - pose proof (add_replay_keeps_db_ok pick (db st) replay store' Hok) as Hk.
    destruct (ReplayDatabase.add_replay pick (db st) replay store')
      as [[e | u] db'].
    + apply rbind_inr_inv in H as (f & _ & H). inversion H; subst. exact Hk.
    + inversion H; subst. exact Hk.
Qed.


Lemma main_keeps_db_ok samples :
  forall picks st,
    db_ok (db st) -> db_ok (db (snd (main picks samples st))).
Proof.
  induction samples as [| sample samples IH]; intros picks st Hok;
    cbn [main].
  - exact Hok.
  - destruct (process (picks 0%nat) st sample) as [e | st1] eqn:E;
      [exact Hok |].
    apply IH. exact (process_keeps_db_ok _ _ _ _ E Hok).
Qed.

(** X4.  A run of the driver keeps the tables consistent: if the ids of
    the replays table are pairwise distinct and every slots row carries
    the id of a replays row before the run, so it is after it, whatever
    files fail, whatever ids the database finds and whether or not the
    run stops early. *)
Theorem main_keeps_tables_consistent picks samples st :
  db_ok (db st) -> db_ok (db (snd (main picks samples st))).
Proof. exact (main_keeps_db_ok samples picks st). Qed.

Lemma main_keeps_tables_consistent_witness :
  db_ok (db (snd (main (fun _ => 0)
                    [(py "a.rep", replay_with_slots);
                     (py "b.rep", replay_wide_user_id);
                     (py "c.rep", lit "GEN")]
                    (RunState (ReplayDatabase.mk [] []) [] [])))).
Proof.
  apply main_keeps_tables_consistent.
  split; simpl; constructor.
Defined.


(** ** How much a decode reads *)

Lemma consumes_ret {A} (a : A) : consumes 0 (ret a).
Proof. intros w b w' H. inversion H. lia. Qed.

Lemma consumes_raise {A} n (e : exn) : consumes n (@raise A e).
Proof. intros w b w' H. discriminate. Qed.

Lemma consumes_lift {A} (r : res A) : consumes 0 (lift r).
Proof. intros w b w' H. inversion H. lia. Qed.

Lemma consumes_read n : consumes 0 (read n).
Proof.
  intros [f l] b w' H. inversion H; subst. simpl. rewrite length_drop. lia.
Qed.

Lemma consumes_bind {A B} n k (m : M A) (f : A -> M B) :
  consumes n m -> (forall a, consumes k (f a)) -> consumes (n + k) (bind m f).
Proof.
  intros Hm Hf w b w2 H.
  apply bind_inr_inv in H as (a & w1 & H1 & H2).
  specialize (Hm _ _ _ H1). specialize (Hf a _ _ _ H2). lia.
Qed.

Lemma consumes_bind_unread {A B} n k (m : M A) (f : A -> M B) :
  consumes_if_unread n m -> (forall a, consumes k (f a)) ->
  (forall a, needs_input (f a)) -> consumes (n + k) (bind m f).
Proof.
  intros Hm Hf Hn w b w2 H.
  apply bind_inr_inv in H as (a & w1 & H1 & H2).
  specialize (Hm _ _ _ H1 (Hn a _ _ _ H2)). specialize (Hf a _ _ _ H2). lia.
Qed.

Lemma consumes_if_unread_bind {A B} n (m : M A) (f : A -> M B) :
  consumes_if_unread n m -> (forall a, consumes 0 (f a)) ->
  (forall a, keeps_eof (f a)) -> consumes_if_unread n (bind m f).
Proof.
  intros Hm Hf He w b w2 H Hne.
  apply bind_inr_inv in H as (a & w1 & H1 & H2).
  assert (file w1 <> []) as Hne1.
  { intros E. apply Hne. exact (He a _ _ _ H2 E). }
  specialize (Hm _ _ _ H1 Hne1). specialize (Hf a _ _ _ H2). lia.
Qed.

Lemma consumes_if_unread_after {A B} n (m : M A) (f : A -> M B) :
  keeps_file m -> (forall a, consumes_if_unread n (f a)) ->
  consumes_if_unread n (bind m f).
Proof.
  intros Hm Hf w b w2 H Hne.
  apply bind_inr_inv in H as (a & w1 & H1 & H2).
  rewrite <- (Hm _ _ _ H1). exact (Hf a _ _ _ H2 Hne).
Qed.

Lemma keeps_file_consumes {A} (m : M A) : keeps_file m -> consumes 0 m.
Proof. intros H w a w' E. rewrite (H _ _ _ E). lia. Qed.

Lemma consumes_if_unread_read n : consumes_if_unread n (read n).
Proof.
  intros [f l] b w' H Hne. inversion H; subst. simpl in *.
  rewrite length_drop.
  destruct (Nat.lt_ge_cases n (length f)) as [Hlt | Hge]; [lia |].
  exfalso. apply Hne. apply drop_ge. exact Hge.
Qed.

Lemma consumes_read_uint16 : consumes 2 read_uint16.
Proof.
  intros [f l] a w' H. unfold read_uint16, bind, read, lift in H. simpl in H.
  destruct f as [| x0 [| x1 r]]; simpl in *; try discriminate.
  inversion H; subst. simpl. rewrite drop_0. lia.
Qed.

Lemma consumes_read_uint32 : consumes 4 read_uint32.
Proof.
  intros [f l] a w' H. unfold read_uint32, bind, read, lift in H. simpl in H.
  destruct f as [| x0 [| x1 [| x2 [| x3 r]]]]; simpl in *; try discriminate.
  inversion H; subst. simpl. rewrite drop_0. lia.
Qed.

Lemma consumes_parse_timestamp : consumes 4 Replay._parse_timestamp.
Proof.
  unfold Replay._parse_timestamp.
  apply (consumes_bind 4 0); [apply consumes_read_uint32 |].
  intros. apply consumes_ret.
Qed.

Lemma consumes_ReplayTimestamp_parse : consumes 16 ReplayTimestamp.parse.
Proof.
  unfold ReplayTimestamp.parse.
  change 16%nat with (2 + (2 + (2 + (2 + (2 + (2 + (2 + (2 + 0))))))))%nat.
  repeat (apply consumes_bind; [apply consumes_read_uint16 | intros ?]).
  apply consumes_ret.
Qed.

Lemma null_terminated_chars_unread f chars rest :
  null_terminated_chars f = (chars, rest) -> rest <> [] ->
  (length rest + 1 <= length f)%nat.
Proof.
  revert chars rest. induction f as [| c f IH]; intros chars rest H Hne;
    simpl in *.
  - inversion H; subst. congruence.
  - destruct (byte_val c =? 0).
    + inversion H; subst. lia.
    + destruct (null_terminated_chars f) as [cs r] eqn:E.
      inversion H; subst. specialize (IH _ _ eq_refl Hne). lia.
Qed.

Lemma null_terminated_utf16_chars_unread f :
  forall chars rest,
    null_terminated_utf16_chars f = (chars, rest) -> rest <> [] ->
    (length rest + 2 <= length f)%nat.
Proof.
  induction f as [| c | c0 c1 f IH] using list_pair_ind;
    intros chars rest H Hne.
  - simpl in H. inversion H; subst. congruence.
  - simpl in H. inversion H; subst. congruence.
  - simpl in *. destruct ((byte_val c0 =? 0) && (byte_val c1 =? 0)).
    + inversion H; subst. lia.
    + destruct (null_terminated_utf16_chars f) as [cs r] eqn:E.
      inversion H; subst. specialize (IH _ _ eq_refl Hne). lia.
Qed.

Lemma consumes_read_null_terminated_string :
  consumes_if_unread 1 read_null_terminated_string.
Proof.
  intros [f l] a w' H Hne. unfold read_null_terminated_string in H.
  simpl in *. destruct (null_terminated_chars f) as [cs r] eqn:E.
  inversion H; subst. simpl in *.
  exact (null_terminated_chars_unread _ _ _ E Hne).
Qed.

Lemma consumes_read_null_terminated_utf16_string :
  consumes_if_unread 2 read_null_terminated_utf16_string.
Proof.
  intros [f l] a w' H Hne. unfold read_null_terminated_utf16_string in H.
  simpl in *. destruct (null_terminated_utf16_chars f) as [cs r] eqn:E.
  inversion H; subst. simpl in *.
  exact (null_terminated_utf16_chars_unread _ _ _ E Hne).
Qed.

Lemma consumes_ReplayMetadata_parse :
  consumes_if_unread 1 ReplayMetadata.parse.
Proof.
  unfold ReplayMetadata.parse, ReplayMetadata.new.
  apply consumes_if_unread_after; [no_read |]. intros metadata.
  apply consumes_if_unread_bind;
    [apply consumes_read_null_terminated_string | |]; intros raw.
  - apply keeps_file_consumes. no_read.
  - apply keeps_file_eof. no_read.
Qed.

Lemma consumes_parse_game_type : consumes_if_unread 6 Replay._parse_game_type.
Proof.
  unfold Replay._parse_game_type.
  apply consumes_if_unread_bind; [apply consumes_if_unread_read | |];
    intros b.
  - change 0%nat with (0 + 0)%nat.
    apply consumes_bind; [apply consumes_lift |]. intros game_type.
    case_decide; [apply consumes_ret |].
    change 0%nat with (0 + (0 + 0))%nat.
    apply consumes_bind; [apply consumes_read |]. intros b'.
    apply consumes_bind; [apply consumes_lift |]. intros tag.
    repeat case_decide; first [apply consumes_ret | apply consumes_raise].
  - apply keeps_eof_bind; [apply keeps_file_eof; no_read |]. intros game_type.
    case_decide; [apply keeps_file_eof; no_read |].
    apply keeps_eof_bind; [auto with stable_db |]. intros b'.
    apply keeps_file_eof. no_read.
Qed.

Create HintDb consume_db.

#[local] Hint Resolve consumes_read_uint16 consumes_read_uint32
  consumes_parse_timestamp consumes_ReplayTimestamp_parse
  consumes_if_unread_read consumes_read_null_terminated_utf16_string
  consumes_ReplayMetadata_parse consumes_parse_game_type : consume_db.

Ltac reads_consume :=
  repeat first
    [ apply consumes_ret
    | apply consumes_raise
    | apply consumes_bind; [solve [auto with consume_db] | intros ?]
    | apply consumes_bind_unread;
        [solve [auto with consume_db] | intros ? | intros ?; reads_need_input]
    | case_decide ].

(** A decode that succeeds has read at least 81 bytes: the tag, 22 bytes of
    times, count and reserved bytes, three names of at least their
    terminator, the 16 bytes of the timestamp, 4 of the versions, the 8 of
    the hash, the terminator of the metadata and the 18 of the trailer. *)
Lemma parse_consumes path : consumes 81 (Replay._parse path).
Proof.
  change 81%nat
    with (6 + (4 + (4 + (2 + (12 + (2 + (16 + (2 + (2 + (2 + (2 + (8 + (1
          + (2 + (4 + (4 + (4 + (4 + 0))))))))))))))))))%nat.
  unfold Replay._parse. reads_consume.
Qed.

(** X6.  No file of fewer than 81 bytes decodes, and 81 is the least size:
    the tag followed by 75 zero bytes is a replay. *)
Theorem decode_needs_81_bytes :
  (forall path bs store,
      (length bs < 81)%nat ->
      exists e store', Replay.__init__ path bs store = (inl e, store'))
  /\ length replay_example = 81%nat
  /\ exists replay store',
      Replay.__init__ (py "a.rep") replay_example [] = (inr replay, store').
Proof.
  split; [| split; [reflexivity | eexists _, _; vm_compute; reflexivity]].
  intros path bs store Hlen. unfold Replay.__init__.
  destruct (Replay._parse path (World bs store)) as [[e | r] w'] eqn:E.
  - eauto.
  - apply parse_consumes in E. simpl in E. lia.
Qed.

Lemma decode_needs_81_bytes_witness :
  exists e store',
    Replay.__init__ (py "a.rep") (lit "GENREP" ++ repeat x00 74) []
    = (inl e, store').
Proof.
  apply (proj1 decode_needs_81_bytes). vm_compute. lia.
Defined.




(** X8.  The decoder reads the header only: when a file decodes, the same
    file followed by any bytes decodes to the same record and leaves the
    same store, and the bytes added are left unread after those the first
    decode left. *)
Theorem decode_ignores_what_follows path full store r w' :
  Replay._parse path (World full store) = (inr r, w') ->
  forall ext,
    Replay._parse path (World (full ++ ext) store)
    = (inr r, World (file w' ++ ext) (lists w')).
Proof.
  intros H ext. exact (parse_stable path _ _ _ H ext).
Qed.

Lemma decode_ignores_what_follows_witness :
  Replay._parse (py "a.rep")
    (World (replay_with_slots ++ lit "frames of the game") [])
  = (inr replay_with_slots_decoded,
     World (file (World [] replay_with_slots_store)
            ++ lit "frames of the game")
       (lists (World [] replay_with_slots_store))).
Proof.
  apply (decode_ignores_what_follows (py "a.rep") replay_with_slots []
           replay_with_slots_decoded (World [] replay_with_slots_store)).
  vm_compute. reflexivity.
Defined.

(** ** The fields of a decoded replay *)

Lemma ReplayTimestamp_parse_range w t w' :
  ReplayTimestamp.parse w = (inr t, w') ->
  0 <= ReplayTimestamp.year t < 2 ^ 16
  /\ 0 <= ReplayTimestamp.month t < 2 ^ 16
  /\ 0 <= ReplayTimestamp.day_of_week t < 2 ^ 16
  /\ 0 <= ReplayTimestamp.day t < 2 ^ 16
  /\ 0 <= ReplayTimestamp.hour t < 2 ^ 16
  /\ 0 <= ReplayTimestamp.minute t < 2 ^ 16
  /\ 0 <= ReplayTimestamp.second t < 2 ^ 16
  /\ 0 <= ReplayTimestamp.millisecond t < 2 ^ 16.
Proof.
  unfold ReplayTimestamp.parse. intros H.
  apply bind_inr_inv in H as (v1 & w1 & H1 & H).
  apply bind_inr_inv in H as (v2 & w2 & H2 & H).
  apply bind_inr_inv in H as (v3 & w3 & H3 & H).
  apply bind_inr_inv in H as (v4 & w4 & H4 & H).
  apply bind_inr_inv in H as (v5 & w5 & H5 & H).
  apply bind_inr_inv in H as (v6 & w6 & H6 & H).
  apply bind_inr_inv in H as (v7 & w7 & H7 & H).
  apply bind_inr_inv in H as (v8 & w8 & H8 & H).
  inversion H; subst; clear H. simpl.
  repeat (split; [eapply read_uint16_range; eassumption |]).
  eapply read_uint16_range; eassumption.
Qed.

Lemma keeps_lists_ReplayTimestamp_parse : keeps_lists ReplayTimestamp.parse.
Proof. unfold ReplayTimestamp.parse, read_uint16. reads_keep_lists. Qed.

Lemma keeps_lists_parse_game_type : keeps_lists Replay._parse_game_type.
Proof. unfold Replay._parse_game_type. reads_keep_lists. Qed.

(** The steps of a successful decode. *)
Lemma parse_steps path w r w' :
  Replay._parse path w = (inr r, w') ->
  exists w1 w2 w3 w4 zero w5 w6 w7 w8 w9 w10 w11 w12 w13 w14 w15 w16 w17,
    Replay._parse_game_type w = (inr GENERALS, w1)
    /\ Replay._parse_timestamp w1 = (inr (Replay.start_date r), w2)
    /\ Replay._parse_timestamp w2 = (inr (Replay.end_date r), w3)
    /\ read_uint16 w3 = (inr (Replay.num_timecodes r), w4)
    /\ read 12 w4 = (inr zero, w5)
    /\ read_null_terminated_utf16_string w5 = (inr (Replay.filename r), w6)
    /\ ReplayTimestamp.parse w6 = (inr (Replay.timestamp r), w7)
    /\ read_null_terminated_utf16_string w7 = (inr (Replay.version r), w8)
    /\ read_null_terminated_utf16_string w8 = (inr (Replay.build_date r), w9)
    /\ read_uint16 w9 = (inr (Replay.version_minor r), w10)
    /\ read_uint16 w10 = (inr (Replay.version_major r), w11)
    /\ read 8 w11 = (inr (Replay.unknown_hash r), w12)
    /\ ReplayMetadata.parse w12 = (inr (Replay.metadata r), w13)
    /\ read_uint16 w13 = (inr (Replay.unknown1 r), w14)
    /\ read_uint32 w14 = (inr (Replay.unknown2 r), w15)
    /\ read_uint32 w15 = (inr (Replay.unknown3 r), w16)
    /\ read_uint32 w16 = (inr (Replay.unknown4 r), w17)
    /\ read_uint32 w17 = (inr (Replay.game_speed r), w')
    /\ Replay.path r = path
    /\ Replay.game_type r = GENERALS.
Proof.
  unfold Replay._parse. intros H.
  apply bind_inr_inv in H as (g & w1 & Hg & H).
  pose proof (parse_game_type_GENERALS _ _ _ Hg) as ->.
  case_decide; [discriminate |].
  apply bind_inr_inv in H as (start_date & w2 & Hsd & H).
  apply bind_inr_inv in H as (end_date & w3 & Hed & H).
  apply bind_inr_inv in H as (num_timecodes & w4 & Hnum & H).
  apply bind_inr_inv in H as (zero & w5 & Hzero & H).
  apply bind_inr_inv in H as (filename & w6 & Hfn & H).
  apply bind_inr_inv in H as (timestamp & w7 & Hts & H).
  apply bind_inr_inv in H as (version & w8 & Hv & H).
  apply bind_inr_inv in H as (build_date & w9 & Hbd & H).
  apply bind_inr_inv in H as (version_minor & w10 & Hmin & H).
  apply bind_inr_inv in H as (version_major & w11 & Hmaj & H).
  apply bind_inr_inv in H as (unknown_hash & w12 & Hhash & H).
  apply bind_inr_inv in H as (metadata & w13 & Hmeta & H).
  apply bind_inr_inv in H as (unknown1 & w14 & H1 & H).
  apply bind_inr_inv in H as (unknown2 & w15 & H2 & H).
  apply bind_inr_inv in H as (unknown3 & w16 & H3 & H).
  apply bind_inr_inv in H as (unknown4 & w17 & H4 & H).
  apply bind_inr_inv in H as (game_speed & w18 & Hgs & H).
  inversion H; subst; clear H. simpl.
  exists w1, w2, w3, w4, zero, w5, w6, w7, w8, w9, w10, w11, w12, w13, w14,
    w15, w16, w17.
  repeat split; assumption.
Qed.

Lemma parse_fields path w r w' :
  Replay._parse path w = (inr r, w') ->
  Replay.path r = path
  /\ Replay.game_type r = GENERALS
  /\ length (Replay.unknown_hash r) = 8%nat
  /\ 0 <= Replay.start_date r < 2 ^ 32
  /\ 0 <= Replay.end_date r < 2 ^ 32
  /\ 0 <= Replay.num_timecodes r < 2 ^ 16
  /\ 0 <= ReplayTimestamp.year (Replay.timestamp r) < 2 ^ 16
  /\ 0 <= ReplayTimestamp.month (Replay.timestamp r) < 2 ^ 16
  /\ 0 <= ReplayTimestamp.day_of_week (Replay.timestamp r) < 2 ^ 16
  /\ 0 <= ReplayTimestamp.day (Replay.timestamp r) < 2 ^ 16
  /\ 0 <= ReplayTimestamp.hour (Replay.timestamp r) < 2 ^ 16
  /\ 0 <= ReplayTimestamp.minute (Replay.timestamp r) < 2 ^ 16
  /\ 0 <= ReplayTimestamp.second (Replay.timestamp r) < 2 ^ 16
  /\ 0 <= ReplayTimestamp.millisecond (Replay.timestamp r) < 2 ^ 16
  /\ 0 <= Replay.version_minor r < 2 ^ 16
  /\ 0 <= Replay.version_major r < 2 ^ 16
  /\ 0 <= Replay.unknown1 r < 2 ^ 16
  /\ 0 <= Replay.unknown2 r < 2 ^ 32
  /\ 0 <= Replay.unknown3 r < 2 ^ 32
  /\ 0 <= Replay.unknown4 r < 2 ^ 32
  /\ 0 <= Replay.game_speed r < 2 ^ 32.
Proof.
  intros H.
  apply parse_steps in H
    as (w1 & w2 & w3 & w4 & zero & w5 & w6 & w7 & w8 & w9 & w10 & w11 & w12
        & w13 & w14 & w15 & w16 & w17 & Hg & Hsd & Hed & Hnum & Hzero & Hfn
        & Hts & Hv & Hbd & Hmin & Hmaj & Hhash & Hmeta & H1 & H2 & H3 & H4
        & Hgs & Hpath & Hgt).
  split; [exact Hpath |]. split; [exact Hgt |]. split.
  { pose proof (read_uint16_needs_input _ _ _ H1) as Hne13.
    assert (file w12 <> []) as Hne12.
    { intros E. apply Hne13.
      exact (ReplayMetadata_parse_keeps_eof _ _ _ Hmeta E). }
    destruct w11 as [f l]. unfold read in Hhash. simpl in Hhash.
    inversion Hhash as [[Eh Ew]]. rewrite <- Ew in Hne12. simpl in Hne12.
    rewrite length_take.
    destruct (Nat.lt_ge_cases 8 (length f)) as [Hlt | Hge]; [lia |].
    exfalso. apply Hne12. apply drop_ge. exact Hge. }
  destruct (ReplayTimestamp_parse_range _ _ _ Hts)
    as (Hy & Hmo & Hdw & Hd & Hh & Hmi & Hs & Hms).
  repeat (split;
          [first [ assumption
                 | eapply parse_timestamp_range; eassumption
                 | eapply read_uint16_range; eassumption
                 | eapply read_uint32_range; eassumption ] |]).
  eapply read_uint32_range; eassumption.
Qed.

(** X9.  Every decoded replay has the path it was asked for and the game
    type GENERALS, comes from a file that starts with the six bytes
    GENREP, holds a hash of exactly 8 bytes, and has every fixed-width
    integer within its width: 32 bits for the two dates, the unknown
    integers 2 to 4 and the game speed, 16 bits for the timecode count,
    the eight fields of the timestamp, the two version numbers and the
    unknown integer 1. *)
Theorem decoded_replay_fields path bs store r store' :
  Replay.__init__ path bs store = (inr r, store') ->
  take 6 bs = lit "GENREP"
  /\ Replay.path r = path
  /\ Replay.game_type r = GENERALS
  /\ length (Replay.unknown_hash r) = 8%nat
  /\ 0 <= Replay.start_date r < 2 ^ 32
  /\ 0 <= Replay.end_date r < 2 ^ 32
  /\ 0 <= Replay.num_timecodes r < 2 ^ 16
  /\ 0 <= ReplayTimestamp.year (Replay.timestamp r) < 2 ^ 16
  /\ 0 <= ReplayTimestamp.month (Replay.timestamp r) < 2 ^ 16
  /\ 0 <= ReplayTimestamp.day_of_week (Replay.timestamp r) < 2 ^ 16
  /\ 0 <= ReplayTimestamp.day (Replay.timestamp r) < 2 ^ 16
  /\ 0 <= ReplayTimestamp.hour (Replay.timestamp r) < 2 ^ 16
  /\ 0 <= ReplayTimestamp.minute (Replay.timestamp r) < 2 ^ 16
  /\ 0 <= ReplayTimestamp.second (Replay.timestamp r) < 2 ^ 16
  /\ 0 <= ReplayTimestamp.millisecond (Replay.timestamp r) < 2 ^ 16
  /\ 0 <= Replay.version_minor r < 2 ^ 16
  /\ 0 <= Replay.version_major r < 2 ^ 16
  /\ 0 <= Replay.unknown1 r < 2 ^ 16
  /\ 0 <= Replay.unknown2 r < 2 ^ 32
  /\ 0 <= Replay.unknown3 r < 2 ^ 32
  /\ 0 <= Replay.unknown4 r < 2 ^ 32
  /\ 0 <= Replay.game_speed r < 2 ^ 32.
Proof.
  unfold Replay.__init__. intros H.
  destruct (Replay._parse path (World bs store)) as [r0 w] eqn:E.
  inversion H; subst; clear H.
  split; [exact (parse_starts_with_tag _ _ _ _ _ E) |].
  exact (parse_fields _ _ _ _ E).
Qed.

Lemma decoded_replay_fields_witness :
  take 6 replay_with_slots = lit "GENREP"
  /\ Replay.path replay_with_slots_decoded = py "a.rep"
  /\ Replay.game_type replay_with_slots_decoded = GENERALS
  /\ length (Replay.unknown_hash replay_with_slots_decoded) = 8%nat
  /\ 0 <= Replay.start_date replay_with_slots_decoded < 2 ^ 32
  /\ 0 <= Replay.end_date replay_with_slots_decoded < 2 ^ 32
  /\ 0 <= Replay.num_timecodes replay_with_slots_decoded < 2 ^ 16
  /\ 0 <= ReplayTimestamp.year (Replay.timestamp replay_with_slots_decoded)
     < 2 ^ 16
  /\ 0 <= ReplayTimestamp.month (Replay.timestamp replay_with_slots_decoded)
     < 2 ^ 16
  /\ 0 <= ReplayTimestamp.day_of_week
            (Replay.timestamp replay_with_slots_decoded) < 2 ^ 16
  /\ 0 <= ReplayTimestamp.day (Replay.timestamp replay_with_slots_decoded)
     < 2 ^ 16
  /\ 0 <= ReplayTimestamp.hour (Replay.timestamp replay_with_slots_decoded)
     < 2 ^ 16
  /\ 0 <= ReplayTimestamp.minute (Replay.timestamp replay_with_slots_decoded)
     < 2 ^ 16
  /\ 0 <= ReplayTimestamp.second (Replay.timestamp replay_with_slots_decoded)
     < 2 ^ 16
  /\ 0 <= ReplayTimestamp.millisecond
            (Replay.timestamp replay_with_slots_decoded) < 2 ^ 16
  /\ 0 <= Replay.version_minor replay_with_slots_decoded < 2 ^ 16
  /\ 0 <= Replay.version_major replay_with_slots_decoded < 2 ^ 16
  /\ 0 <= Replay.unknown1 replay_with_slots_decoded < 2 ^ 16
  /\ 0 <= Replay.unknown2 replay_with_slots_decoded < 2 ^ 32
  /\ 0 <= Replay.unknown3 replay_with_slots_decoded < 2 ^ 32
  /\ 0 <= Replay.unknown4 replay_with_slots_decoded < 2 ^ 32
  /\ 0 <= Replay.game_speed replay_with_slots_decoded < 2 ^ 32.
Proof.
  apply (decoded_replay_fields (py "a.rep") replay_with_slots []
           replay_with_slots_decoded replay_with_slots_store).
  vm_compute. reflexivity.
Defined.

Lemma parse_allocates path w r w' :
  Replay._parse path w = (inr r, w') ->
  ReplayMetadata.slots (Replay.metadata r) = length (lists w)
  /\ length (lists w') = S (length (lists w)).
Proof.
  intros H.
  apply parse_steps in H
    as (w1 & w2 & w3 & w4 & zero & w5 & w6 & w7 & w8 & w9 & w10 & w11 & w12
        & w13 & w14 & w15 & w16 & w17 & Hg & Hsd & Hed & Hnum & Hzero & Hfn
        & Hts & Hv & Hbd & Hmin & Hmaj & Hhash & Hmeta & H1 & H2 & H3 & H4
        & Hgs & _).
  apply ReplayMetadata_parse_slots in Hmeta as [Hslots Hlen].
  rewrite (keeps_lists_read_uint32 _ _ _ Hgs).
  rewrite (keeps_lists_read_uint32 _ _ _ H4).
  rewrite (keeps_lists_read_uint32 _ _ _ H3).
  rewrite (keeps_lists_read_uint32 _ _ _ H2).
  rewrite (keeps_lists_read_uint16 _ _ _ H1).
  rewrite Hslots, Hlen.
  rewrite (keeps_lists_read _ _ _ _ Hhash).
  rewrite (keeps_lists_read_uint16 _ _ _ Hmaj).
  rewrite (keeps_lists_read_uint16 _ _ _ Hmin).
  rewrite (keeps_lists_read_null_terminated_utf16_string _ _ _ Hbd).
  rewrite (keeps_lists_read_null_terminated_utf16_string _ _ _ Hv).
  rewrite (keeps_lists_ReplayTimestamp_parse _ _ _ Hts).
  rewrite (keeps_lists_read_null_terminated_utf16_string _ _ _ Hfn).
  rewrite (keeps_lists_read _ _ _ _ Hzero).
  rewrite (keeps_lists_read_uint16 _ _ _ Hnum).
  rewrite (keeps_lists_parse_timestamp _ _ _ Hed).
  rewrite (keeps_lists_parse_timestamp _ _ _ Hsd).
  rewrite (keeps_lists_parse_game_type _ _ _ Hg).
  auto.
Qed.

(** X10.  Whatever its outcome, a decode leaves the lists the store held
    as they were, in place; and a decode that succeeds adds exactly one
    list, the list of the slots of the record, which is the last of the
    store. *)
Theorem decode_allocates_one_list path bs store res store' :
  Replay.__init__ path bs store = (res, store') ->
  store `prefix_of` store'
  /\ forall r, res = inr r ->
       ReplayMetadata.slots (Replay.metadata r) = length store
       /\ length store' = S (length store).
Proof.
  unfold Replay.__init__. intros H.
  destruct (Replay._parse path (World bs store)) as [r0 w] eqn:E.
  inversion H; subst; clear H. split.
  - rewrite parse_in_store in E. inversion E. simpl.
    apply prefix_app_r. reflexivity.
  - intros r ->. exact (parse_allocates _ _ _ _ E).
Qed.

Lemma decode_allocates_one_list_witness :
  [] `prefix_of` replay_with_slots_store
  /\ forall r, @inr exn Replay.t replay_with_slots_decoded = inr r ->
       ReplayMetadata.slots (Replay.metadata r)
       = length (@nil (list ReplaySlot.t))
       /\ length replay_with_slots_store
          = S (length (@nil (list ReplaySlot.t))).
Proof.
  apply (decode_allocates_one_list (py "a.rep") replay_with_slots).
  vm_compute. reflexivity.
Defined.

(** ** The primitive readers *)

(** X11.  [read_uint16] and [read_uint32] succeed exactly when 2 and 4
    bytes are left: they then consume exactly those bytes and return a
    value below 2^16 and 2^32; with fewer bytes left they raise
    [struct.error], and the bytes that were left are consumed. *)
Theorem read_uint_exact w :
  ((2 <= length (file w))%nat ->
   exists v, read_uint16 w = (inr v, World (drop 2 (file w)) (lists w))
             /\ 0 <= v < 2 ^ 16)
  /\ ((length (file w) < 2)%nat ->
      read_uint16 w = (inl struct_error, World [] (lists w)))
  /\ ((4 <= length (file w))%nat ->
      exists v, read_uint32 w = (inr v, World (drop 4 (file w)) (lists w))
                /\ 0 <= v < 2 ^ 32)
  /\ ((length (file w) < 4)%nat ->
      read_uint32 w = (inl struct_error, World [] (lists w))).
Proof.
  destruct w as [f l]. cbn [file lists]. repeat split.
  - intros H. destruct f as [| x0 [| x1 r]]; simpl in H; try lia.
    eexists. split; [reflexivity |].
    eapply (read_uint16_range (World (x0 :: x1 :: r) l)). reflexivity.
  - intros H. destruct f as [| x0 [| x1 r]]; simpl in H; try lia;
      reflexivity.
  - intros H.
    destruct f as [| x0 [| x1 [| x2 [| x3 r]]]]; simpl in H; try lia.
    eexists. split; [reflexivity |].
    eapply (read_uint32_range (World (x0 :: x1 :: x2 :: x3 :: r) l)).
    reflexivity.
  - intros H.
    destruct f as [| x0 [| x1 [| x2 [| x3 r]]]]; simpl in H; try lia;
      reflexivity.
Qed.

Lemma read_uint_exact_witness :
  read_uint32 (World (lit "abc") []) = (inl struct_error, World [] []).
Proof.
  apply (proj2 (proj2 (proj2 (read_uint_exact (World (lit "abc") []))))).
  vm_compute. lia.
Defined.

(** X12.  [ReplayTimestamp.parse] succeeds exactly when 16 bytes are left:
    it then consumes exactly those bytes and its eight fields are below
    2^16; with fewer bytes left it raises [struct.error] and the bytes
    that were left are consumed. *)
Theorem ReplayTimestamp_parse_exact w :
  ((16 <= length (file w))%nat ->
   exists t,
     ReplayTimestamp.parse w = (inr t, World (drop 16 (file w)) (lists w))
     /\ 0 <= ReplayTimestamp.year t < 2 ^ 16
     /\ 0 <= ReplayTimestamp.month t < 2 ^ 16
     /\ 0 <= ReplayTimestamp.day_of_week t < 2 ^ 16
     /\ 0 <= ReplayTimestamp.day t < 2 ^ 16
     /\ 0 <= ReplayTimestamp.hour t < 2 ^ 16
     /\ 0 <= ReplayTimestamp.minute t < 2 ^ 16
     /\ 0 <= ReplayTimestamp.second t < 2 ^ 16
     /\ 0 <= ReplayTimestamp.millisecond t < 2 ^ 16)
  /\ ((length (file w) < 16)%nat ->
      ReplayTimestamp.parse w = (inl struct_error, World [] (lists w))).
Proof.
  destruct w as [f l]. cbn [file lists]. split; intros H.
  - do 16 (destruct f as [| ? f]; [simpl in H; lia |]).
    destruct (ReplayTimestamp.parse
                (World (b :: b0 :: b1 :: b2 :: b3 :: b4 :: b5 :: b6 :: b7
                        :: b8 :: b9 :: b10 :: b11 :: b12 :: b13 :: b14 :: f)
                   l)) as [r w'] eqn:E.
    assert (exists t, r = inr t /\ w' = World f l) as (t & -> & ->).
    { revert E. unfold ReplayTimestamp.parse, read_uint16, bind, read, lift.
      simpl. intros E. inversion E. eauto. }
    exists t. split; [reflexivity |].
    exact (ReplayTimestamp_parse_range _ _ _ E).
  - do 16 (destruct f as [| ? f]; [reflexivity |]).
    simpl in H. lia.
Qed.

Lemma ReplayTimestamp_parse_exact_witness :
  ReplayTimestamp.parse (World (repeat x01 15) [])
  = (inl struct_error, World [] []).
Proof.
  apply (proj2 (ReplayTimestamp_parse_exact (World (repeat x01 15) []))).
  vm_compute. lia.
Defined.

Lemma byte_val_zero c : byte_val c = 0 -> c = x00.
Proof.
  intros H. apply byte_of_val in H. vm_compute in H. congruence.
Qed.

(** What the loop of [read_null_terminated_string] collects and leaves. *)
Lemma null_terminated_chars_spec f chars rest :
  null_terminated_chars f = (chars, rest) ->
  Forall (fun c => byte_val c <> 0) chars
  /\ (f = chars ++ x00 :: rest \/ f = chars /\ rest = []).
Proof.
  revert chars rest. induction f as [| c f IH]; intros chars rest H;
    simpl in H.
  - inversion H; subst. auto.
  - destruct (Z.eqb_spec (byte_val c) 0) as [Ez | Hnz].
    + inversion H; subst. apply byte_val_zero in Ez. subst c. auto.
    + destruct (null_terminated_chars f) as [cs r] eqn:E.
      inversion H; subst.
      destruct (IH _ _ eq_refl) as [Hcs [Hf | [Hf Hr]]].
      * split; [constructor; assumption |]. left. rewrite Hf at 1.
        reflexivity.
      * split; [constructor; assumption |]. right. subst. auto.
Qed.

Lemma utf8_decode_nonzero_le n :
  forall bs s, (length bs <= n)%nat -> utf8_decode bs = inr s ->
               Forall (fun c => byte_val c <> 0) bs ->
               Forall (fun c => c <> 0) s.
Proof.
  induction n as [| n IH]; intros bs s Hn H Hbs.
  - destruct bs; [| simpl in Hn; lia]. inversion H. constructor.
  - destruct bs as [| x0 r0]; [inversion H; constructor |].
    simpl in Hn. cbn [utf8_decode] in H. cbv zeta in H.
    repeat (case_match; try discriminate);
      apply rbind_inr_inv in H as (s0 & E & H); inversion H; subst;
      repeat match goal with
             | H : Forall _ (_ :: _) |- _ => apply Forall_cons in H as [? H]
             end;
      (constructor;
       [| eapply IH; [| eassumption | assumption]; simpl in *; lia]);
      try assumption;
      unfold continuation in *;
      repeat match goal with
             | H : context [if ?c then _ else _] |- _ => destruct c eqn:?
             end;
      repeat match goal with
             | H : _ && _ = true |- _ => apply andb_true_iff in H as [? ?]
             end;
      lia.
Qed.

(** X13.  [read_null_terminated_string] returns the text of the bytes that
    come before the first zero byte, or of all the bytes when there is
    none; it leaves unread what follows that zero byte; and the text it
    returns never contains the character U+0000. *)
Theorem read_null_terminated_string_spec w s w' :
  read_null_terminated_string w = (inr s, w') ->
  (0 ∉ s)
  /\ lists w' = lists w
  /\ exists chars,
      utf8_decode chars = inr s
      /\ Forall (fun c => byte_val c <> 0) chars
      /\ (file w = chars ++ x00 :: file w'
          \/ file w = chars /\ file w' = []).
Proof.
  destruct w as [f l]. unfold read_null_terminated_string. cbn [file lists].
  destruct (null_terminated_chars f) as [chars rest] eqn:E. intros H.
  inversion H as [[Hs Hw]]; subst; clear H. cbn [file lists].
  destruct (null_terminated_chars_spec _ _ _ E) as [Hchars Hf].
  split.
  - intros Hin.
    pose proof (utf8_decode_nonzero_le (length chars) chars s
                  (Nat.le_refl _) Hs Hchars) as Hnz.
    rewrite Forall_forall in Hnz. exact (Hnz 0 Hin eq_refl).
  - split; [reflexivity |]. exists chars. auto.
Qed.

Lemma read_null_terminated_string_spec_witness :
  (0 ∉ py "US=1")
  /\ lists (World (lit "rest") [])
     = lists (World (lit "US=1" ++ x00 :: lit "rest") [])
  /\ exists chars,
      utf8_decode chars = inr (py "US=1")
      /\ Forall (fun c => byte_val c <> 0) chars
      /\ (file (World (lit "US=1" ++ x00 :: lit "rest") [])
          = chars ++ x00 :: file (World (lit "rest") [])
          \/ file (World (lit "US=1" ++ x00 :: lit "rest") []) = chars
             /\ file (World (lit "rest") []) = []).
Proof.
  apply (read_null_terminated_string_spec
           (World (lit "US=1" ++ x00 :: lit "rest") [])).
  reflexivity.
Defined.

Lemma null_terminated_utf16_chars_units f :
  forall chars rest,
    null_terminated_utf16_chars f = (chars, rest) -> no_zero_unit chars.
Proof.
  induction f as [| c | c0 c1 f IH] using list_pair_ind;
    intros chars rest H.
  - inversion H. exact I.
  - inversion H. exact I.
  - simpl in H.
    destruct (Z.eqb_spec (byte_val c0) 0) as [E0 | N0];
      destruct (Z.eqb_spec (byte_val c1) 0) as [E1 | N1]; simpl in H;
      try (inversion H; exact I);
      destruct (null_terminated_utf16_chars f) as [cs r] eqn:E;
      inversion H; subst; simpl; (split; [lia | exact (IH _ _ eq_refl)]).
Qed.

Lemma utf16_units_nonzero big_endian bs :
  forall us, utf16_units big_endian bs = inr us -> no_zero_unit bs ->
             Forall (fun u => u <> 0) us.
Proof.
  induction bs as [| c | c0 c1 bs IH] using list_pair_ind; intros us H Hnz.
  - inversion H. constructor.
  - discriminate.
  - cbn [utf16_units] in H.
    apply rbind_inr_inv in H as (us0 & E & H). inversion H; subst.
    destruct Hnz as [Hnz Hrest].
    constructor; [| exact (IH _ E Hrest)].
    pose proof (byte_val_range c0). pose proof (byte_val_range c1).
    destruct big_endian; lia.
Qed.

Lemma utf16_combine_nonzero_le n :
  forall us s, (length us <= n)%nat -> utf16_combine us = inr s ->
               Forall (fun u => u <> 0) us -> Forall (fun c => c <> 0) s.
Proof.
  induction n as [| n IH]; intros us s Hn H Hus.
  - destruct us; [| simpl in Hn; lia]. inversion H. constructor.
  - destruct us as [| u r]; [inversion H; constructor |].
    simpl in Hn. cbn [utf16_combine] in H.
    repeat (case_match; try discriminate);
      apply rbind_inr_inv in H as (s0 & E & H); inversion H; subst;
      repeat match goal with
             | H : Forall _ (_ :: _) |- _ => apply Forall_cons in H as [? H]
             end;
      (constructor;
       [| eapply IH; [| eassumption | assumption]; simpl in *; lia]);
      try assumption;
      unfold high_surrogate, low_surrogate in *;
      repeat match goal with
             | H : _ && _ = true |- _ => apply andb_true_iff in H as [? ?]
             end;
      lia.
Qed.

Lemma utf16_decode_nonzero bs s :
  utf16_decode bs = inr s -> no_zero_unit bs -> Forall (fun c => c <> 0) s.
Proof.
  unfold utf16_decode. intros H Hnz.
  repeat case_match;
    apply rbind_inr_inv in H as (us & E & H);
    (apply (utf16_combine_nonzero_le (length us) us s); [lia | exact H |]);
    eapply utf16_units_nonzero; try exact E; simpl in *; tauto.
Qed.

(** X14.  The text [read_null_terminated_utf16_string] returns never
    contains the character U+0000, and the reader leaves the store
    alone. *)
Theorem read_null_terminated_utf16_string_spec w s w' :
  read_null_terminated_utf16_string w = (inr s, w') ->
  (0 ∉ s) /\ lists w' = lists w.
Proof.
  destruct w as [f l]. unfold read_null_terminated_utf16_string.
  cbn [file lists].
  destruct (null_terminated_utf16_chars f) as [chars rest] eqn:E. intros H.
  inversion H as [[Hs Hw]]; subst; clear H. cbn [file lists].
  split; [| reflexivity]. intros Hin.
  pose proof (utf16_decode_nonzero _ _ Hs
                (null_terminated_utf16_chars_units _ _ _ E)) as Hnz.
  rewrite Forall_forall in Hnz. exact (Hnz 0 Hin eq_refl).
Qed.

Lemma read_null_terminated_utf16_string_spec_witness :
  (0 ∉ py "ab")
  /\ lists (World (lit "rest") [])
     = lists (World ([x61; x00; x62; x00; x00; x00] ++ lit "rest") []).
Proof.
  apply (read_null_terminated_utf16_string_spec
           (World ([x61; x00; x62; x00; x00; x00] ++ lit "rest") [])).
  reflexivity.
Defined.

(** ** Splitting *)

Lemma split_not_nil sep s : split sep s <> [].
Proof.
  destruct s as [| c s]; simpl; [discriminate |].
  destruct (c =? sep); [discriminate |].
  destruct (split sep s); discriminate.
Qed.

(** No piece of a split holds the separator. *)
Lemma split_pieces sep s : Forall (fun p => sep ∉ p) (split sep s).
Proof.
  induction s as [| c s IH]; simpl.
  - repeat constructor. apply not_elem_of_nil.
  - destruct (Z.eqb_spec c sep) as [-> | Hne].
    + constructor; [apply not_elem_of_nil | exact IH].
    + destruct (split sep s) as [| p ps]; [repeat constructor |].
      * intros H. apply elem_of_cons in H as [H | H]; [congruence |].
        inversion H.
      * apply Forall_cons in IH as [Hp Hps]. constructor; [| exact Hps].
        intros H. apply elem_of_cons in H as [H | H]; [congruence | auto].
Qed.

(** The first piece of a text that does not start with the separator
    starts with the first character of the text. *)
Lemma split_head sep c s :
  c <> sep -> exists p ps, split sep (c :: s) = (c :: p) :: ps
                           /\ sep ∉ p.
Proof.
  intros Hne. pose proof (split_pieces sep (c :: s)) as Hall. simpl in *.
  destruct (Z.eqb_spec c sep) as [-> | _]; [congruence |].
  destruct (split sep s) as [| p ps] eqn:E.
  - exfalso. exact (split_not_nil _ _ E).
  - exists p, ps. split; [reflexivity |].
    apply Forall_cons in Hall as [Hp _]. intros H. apply Hp.
    apply elem_of_cons. auto.
Qed.

Lemma split1_at sep key value :
  sep ∉ key -> split1 sep (key ++ sep :: value) = [key; value].
Proof.
  induction key as [| c key IH]; intros H; simpl.
  - rewrite Z.eqb_refl. reflexivity.
  - apply not_elem_of_cons in H as [Hc Hkey].
    destruct (Z.eqb_spec c sep) as [-> | _]; [congruence |].
    rewrite (IH Hkey). reflexivity.
Qed.

(** ** Slot tokens *)

(** X15.  What it takes for a slot token to parse.  A HUMAN slot comes
    from a token that starts with H and has at least 8 non-empty comma
    separated fields; its name is the text between the H and the first
    comma, and holds no comma.  A COMPUTER slot comes from a token that
    starts with C, whose second character is E, M or H, and that has at
    least 5 non-empty fields.  An EMPTY slot comes from a token that
    starts with X or O. *)
Theorem slot_token_shape raw s :
  ReplaySlot.parse raw = inr s ->
  let slot_details := List.filter truthy (split (ord ",") raw) in
  match ReplaySlot.slot_type s with
  | HUMAN =>
      raw !! 0%nat = Some (ord "H")
      /\ (8 <= length slot_details)%nat
      /\ slot_details !! 0%nat = Some (ord "H" :: ReplaySlot.human_name s)
      /\ (ord "," ∉ ReplaySlot.human_name s)
  | COMPUTER =>
      raw !! 0%nat = Some (ord "C")
      /\ (raw !! 1%nat = Some (ord "E") \/ raw !! 1%nat = Some (ord "M")
          \/ raw !! 1%nat = Some (ord "H"))
      /\ (5 <= length slot_details)%nat
  | EMPTY =>
      raw !! 0%nat = Some (ord "X") \/ raw !! 0%nat = Some (ord "O")
  end.
Proof.
  intros H slot_details. unfold ReplaySlot.parse in H.
  apply rbind_inr_inv in H as (slot_type & Htype & H).
  unfold ReplaySlot._read_slot_type in Htype.
  apply rbind_inr_inv in Htype as (c & Hc & Htype). apply index_inr in Hc.
  destruct slot_type.
  - inversion H; subst; clear H. simpl.
    repeat (case_match; try discriminate).
    match goal with
    | E : _ || _ = true |- _ =>
        apply orb_true_iff in E as [E | E]; apply Z.eqb_eq in E; subst c; auto
    end.
  - fold slot_details in H.
    apply rbind_inr_inv in H as (d0 & Hd0 & H).
    apply rbind_inr_inv in H as (d1 & _ & H).
    apply rbind_inr_inv in H as (v1 & _ & H).
    apply rbind_inr_inv in H as (d4 & _ & H).
    apply rbind_inr_inv in H as (v4 & _ & H).
    apply rbind_inr_inv in H as (d5 & _ & H).
    apply rbind_inr_inv in H as (v5 & _ & H).
    apply rbind_inr_inv in H as (d6 & _ & H).
    apply rbind_inr_inv in H as (v6 & _ & H).
    apply rbind_inr_inv in H as (d7 & Hd7 & H).
    apply rbind_inr_inv in H as (v7 & _ & H).
    inversion H; subst; clear H. simpl.
    apply index_inr in Hd0, Hd7.
    assert (c = ord "H") as ->.
    { repeat (case_match; try discriminate).
      apply Z.eqb_eq. assumption. }
    destruct raw as [| c0 raw']; [discriminate |].
    inversion Hc; subst c0.
    destruct (split_head (ord ",") (ord "H") raw') as (p & ps & Esplit & Hp);
      [discriminate |].
    unfold slot_details in *. rewrite Esplit in *. simpl in Hd0.
    inversion Hd0; subst d0. simpl.
    repeat split; try assumption.
    apply lookup_lt_Some in Hd7. simpl in Hd7. lia.
  - fold slot_details in H.
    apply rbind_inr_inv in H as (v & Hv & H).
    apply rbind_inr_inv in H as (d1 & _ & H).
    apply rbind_inr_inv in H as (v1 & _ & H).
    apply rbind_inr_inv in H as (d2 & _ & H).
    apply rbind_inr_inv in H as (v2 & _ & H).
    apply rbind_inr_inv in H as (d3 & _ & H).
    apply rbind_inr_inv in H as (v3 & _ & H).
    apply rbind_inr_inv in H as (d4 & Hd4 & H).
    apply rbind_inr_inv in H as (v4 & _ & H).
    inversion H; subst; clear H. simpl.
    apply index_inr in Hd4. apply lookup_lt_Some in Hd4.
    split; [| split; [| exact Hd4]].
    + repeat (case_match; try discriminate).
      match goal with
      | E : (c =? _) = true |- _ => apply Z.eqb_eq in E; subst c; exact Hc
      end.
    + unfold ReplaySlot._read_slot_difficulty in Hv.
      apply rbind_inr_inv in Hv as (c1 & Hc1 & Hv). apply index_inr in Hc1.
      repeat (case_match; try discriminate);
        try match goal with
            | E : (c1 =? _) = true |- _ =>
                apply Z.eqb_eq in E; subst c1; auto
            end.
      apply rbind_inr_inv in Hv as (c0 & _ & Hv). discriminate.
Qed.

Lemma slot_token_shape_witness :
  let slot_details := List.filter truthy (split (ord ",") (py "HBob,C0A80164,8088,TT,3,1,-1,2,1")) in
  match ReplaySlot.slot_type (ReplaySlot.mk HUMAN (py "Bob") 3232235876 None 3 1 (-1) 2)
  with
  | HUMAN =>
      py "HBob,C0A80164,8088,TT,3,1,-1,2,1" !! 0%nat = Some (ord "H")
      /\ (8 <= length slot_details)%nat
      /\ slot_details !! 0%nat
         = Some (ord "H"
                 :: ReplaySlot.human_name
                      (ReplaySlot.mk HUMAN (py "Bob") 3232235876 None 3 1
                         (-1) 2))
      /\ (ord ","
          ∉ ReplaySlot.human_name
              (ReplaySlot.mk HUMAN (py "Bob") 3232235876 None 3 1 (-1) 2))
  | COMPUTER =>
      py "HBob,C0A80164,8088,TT,3,1,-1,2,1" !! 0%nat = Some (ord "C")
      /\ (py "HBob,C0A80164,8088,TT,3,1,-1,2,1" !! 1%nat = Some (ord "E")
          \/ py "HBob,C0A80164,8088,TT,3,1,-1,2,1" !! 1%nat = Some (ord "M")
          \/ py "HBob,C0A80164,8088,TT,3,1,-1,2,1" !! 1%nat = Some (ord "H"))
      /\ (5 <= length slot_details)%nat
  | EMPTY =>
      py "HBob,C0A80164,8088,TT,3,1,-1,2,1" !! 0%nat = Some (ord "X")
      \/ py "HBob,C0A80164,8088,TT,3,1,-1,2,1" !! 0%nat = Some (ord "O")
  end.
Proof.
  apply (slot_token_shape (py "HBob,C0A80164,8088,TT,3,1,-1,2,1")).
  vm_compute. reflexivity.
Defined.

(** ** Metadata entries *)

(** X16.  An entry is split at its first "=" only, and a key outside the
    ten the parser knows is refused whatever its value: the entry raises
    the parser's failure "Unexpected replay metadata key: " followed by
    the key, and the store is left alone. *)
Theorem unexpected_metadata_key metadata key value w :
  ord "=" ∉ key ->
  key ∉ [py "US"; py "M"; py "MC"; py "MS"; py "SD"; py "C"; py "SR";
         py "SC"; py "O"; py "S"] ->
  ReplayMetadata.parse_entry metadata (key ++ ord "=" :: value) w
  = (inl (ReplayParserException
            (py "Unexpected replay metadata key: " ++ key)), w).
Proof.
  intros Hkey Hunknown. unfold ReplayMetadata.parse_entry.
  rewrite (split1_at _ _ _ Hkey).
  repeat (case_decide;
          [exfalso; apply Hunknown; subst key;
           repeat first [apply list_elem_of_here | apply list_elem_of_further]
          |]).
  reflexivity.
Qed.

Lemma unexpected_metadata_key_witness :
  ReplayMetadata.parse_entry (ReplayMetadata.mk 0 [] 0 0 0 0 0 0 (inl 0) 0)
    (py "ZZ" ++ ord "=" :: py "1=2") (World [] [[]])
  = (inl (ReplayParserException
            (py "Unexpected replay metadata key: " ++ py "ZZ")),
     World [] [[]]).
Proof.
  apply unexpected_metadata_key.
  - intros H. vm_compute in H.
    repeat (apply elem_of_cons in H as [H | H]; [discriminate |]).
    inversion H.
  - intros H. vm_compute in H.
    repeat (apply elem_of_cons in H as [H | H]; [discriminate |]).
    inversion H.
Defined.

Lemma for_in_parse_slot_raw metadata pieces :
  forall new_slots w,
    Forall2 (fun piece slot => ReplaySlot.parse piece = inr slot)
      (List.filter truthy pieces) new_slots ->
    for_in pieces ReplayMetadata.parse_slot_raw metadata w
    = (inr metadata,
       World (file w)
         (alter (fun slots => slots ++ new_slots)
            (ReplayMetadata.slots metadata) (lists w))).
Proof.
  induction pieces as [| piece pieces IH]; intros new_slots w H.
  - simpl in H. inversion H; subst. simpl. unfold ret.
    rewrite list_alter_id by (intros; apply app_nil_r).
    destruct w. reflexivity.
  - cbn [for_in List.filter] in *.
    unfold ReplayMetadata.parse_slot_raw at 1.
    destruct (truthy piece); cbn [negb].
    + inversion H as [| ? slot ? rest Hslot Hrest]; subst.
      unfold bind at 1. unfold bind at 1. unfold lift at 1. rewrite Hslot.
      unfold bind at 1. unfold list_append at 1. unfold ret at 1.
      rewrite (IH rest _ Hrest). cbn [file lists].
      rewrite list_alter_alter_eq. f_equal. f_equal.
      apply list_alter_ext; [| reflexivity].
      intros x _. simpl. rewrite <- app_assoc. reflexivity.
    + unfold bind at 1. unfold ret at 1. apply IH. exact H.
Qed.

(** X17.  An [S] entry whose non-empty pieces between colons all parse
    appends their slots, in the order of the pieces, to the list of the
    slots of the metadata; it changes nothing else, and empty pieces
    count for nothing. *)
Theorem slots_entry_appends metadata value new_slots w :
  Forall2 (fun piece slot => ReplaySlot.parse piece = inr slot)
    (List.filter truthy (split (ord ":") value)) new_slots ->
  ReplayMetadata.parse_entry metadata (py "S=" ++ value) w
  = (inr metadata,
     World (file w)
       (alter (fun slots => slots ++ new_slots)
          (ReplayMetadata.slots metadata) (lists w))).
Proof.
  intros H. unfold ReplayMetadata.parse_entry.
  change (split1 (ord "=") (py "S=" ++ value)) with [py "S"; value].
  cbv iota. repeat (case_decide; try discriminate); [| congruence].
  exact (for_in_parse_slot_raw metadata _ _ w H).
Qed.

Lemma slots_entry_appends_witness :
  ReplayMetadata.parse_entry (ReplayMetadata.mk 0 [] 0 0 0 0 0 0 (inl 0) 0)
    (py "S=" ++ py "::X:CE,1,2,3,4::O:") (World [] [[]])
  = (inr (ReplayMetadata.mk 0 [] 0 0 0 0 0 0 (inl 0) 0),
     World (file (World [] [[]]))
       (alter (fun slots =>
                 slots ++ [ReplaySlot.new EMPTY;
                           ReplaySlot.mk COMPUTER [] 0 (Some EASY) 1 2 3 4;
                           ReplaySlot.new EMPTY])
          (ReplayMetadata.slots (ReplayMetadata.mk 0 [] 0 0 0 0 0 0 (inl 0) 0))
          (lists (World [] [[]])))).
Proof.
  apply slots_entry_appends.
  repeat constructor.
Defined.

(** ** gentool_downloader *)

Lemma strip_invalid_chars_clean filename :
  Forall (fun c => c ∉ WINDOWS_DISALLOWED_CHARS) (strip_invalid_chars filename).
Proof.
  unfold strip_invalid_chars. apply Forall_forall. intros c Hin.
  apply list_elem_of_In, filter_In in Hin as [_ Hc].
  apply negb_true_iff, bool_decide_eq_false in Hc. exact Hc.
Qed.

Lemma strip_invalid_chars_id filename :
  Forall (fun c => c ∉ WINDOWS_DISALLOWED_CHARS) filename ->
  strip_invalid_chars filename = filename.
Proof.
  unfold strip_invalid_chars. induction 1 as [| c l Hc _ IH]; simpl.
  - reflexivity.
  - rewrite bool_decide_eq_false_2 by exact Hc. simpl. rewrite IH.
    reflexivity.
Qed.

(** X18.  [strip_invalid_chars] returns a name without any of the nine
    characters Windows refuses (so without a slash or a backslash); it
    keeps the other characters in their order; it changes a name exactly
    when the name holds one of the nine; applying it twice is applying it
    once; and it works piece by piece on a concatenation. *)
Theorem strip_invalid_chars_spec filename other :
  Forall (fun c => c ∉ WINDOWS_DISALLOWED_CHARS) (strip_invalid_chars filename)
  /\ strip_invalid_chars filename `sublist_of` filename
  /\ (strip_invalid_chars filename = filename
      <-> Forall (fun c => c ∉ WINDOWS_DISALLOWED_CHARS) filename)
  /\ strip_invalid_chars (strip_invalid_chars filename)
     = strip_invalid_chars filename
  /\ strip_invalid_chars (filename ++ other)
     = strip_invalid_chars filename ++ strip_invalid_chars other.
Proof.
  split; [apply strip_invalid_chars_clean |]. split; [| split; [| split]].
  - unfold strip_invalid_chars.
    induction filename as [| c l IH]; simpl; [constructor |].
    destruct (negb (bool_decide (c ∈ WINDOWS_DISALLOWED_CHARS)));
      [apply sublist_skip | apply sublist_cons]; exact IH.
  - split.
    + intros <-. apply strip_invalid_chars_clean.
    + apply strip_invalid_chars_id.
  - apply strip_invalid_chars_id, strip_invalid_chars_clean.
  - unfold strip_invalid_chars. apply List.filter_app.
Qed.

Lemma split_app sep a b :
  split sep (a ++ sep :: b) = split sep a ++ split sep b.
Proof.
  induction a as [| c a IH]; simpl.
  - rewrite Z.eqb_refl. reflexivity.
  - destruct (c =? sep); [rewrite IH; reflexivity |].
    rewrite IH. destruct (split sep a) as [| q qs] eqn:E;
      [exfalso; exact (split_not_nil _ _ E) | reflexivity].
Qed.

Lemma path_parts_pieces subpath :
  Forall (fun p => p <> [] /\ ord "/" ∉ p) (path_parts subpath).
Proof.
  unfold path_parts. apply Forall_forall. intros p Hin.
  apply list_elem_of_In, filter_In in Hin as [Hin Hp].
  split; [destruct p; discriminate |].
  pose proof (split_pieces (ord "/") subpath) as Hall.
  rewrite Forall_forall in Hall. apply Hall, list_elem_of_In. exact Hin.
Qed.

Lemma path_parts_app subpath other :
  path_parts (subpath ++ ord "/" :: other)
  = path_parts subpath ++ path_parts other.
Proof. unfold path_parts. rewrite split_app. apply List.filter_app. Qed.

Lemma split_without sep s : sep ∉ s -> split sep s = [s].
Proof.
  induction s as [| c s IH]; intros H; simpl.
  - reflexivity.
  - apply not_elem_of_cons in H as [Hc Hs].
    destruct (Z.eqb_spec c sep) as [-> | _]; [congruence |].
    rewrite (IH Hs). reflexivity.
Qed.

(** The path of a single name: no root, and the name as only component
    unless it is ".". *)
Lemma Path_of_piece p :
  p <> [] -> ord "/" ∉ p ->
  Path_of p = MkPath [] (if bool_decide (p = py ".") then [] else [p]).
Proof.
  intros Hne Hp. unfold Path_of. rewrite (split_without _ _ Hp).
  destruct p as [| c p]; [congruence |].
  apply not_elem_of_cons in Hp as [Hc _].
  destruct (Z.eqb_spec c (ord "/")) as [-> | _]; [congruence |].
  cbn [List.filter truthy andb]. destruct (bool_decide _); reflexivity.
Qed.

Lemma joinpath_pieces segments :
  Forall (fun p => p <> [] /\ ord "/" ∉ p) segments ->
  forall q,
    joinpath q segments
    = MkPath (Path_root q)
        (Path_components q
         ++ List.filter (fun p => negb (bool_decide (p = py "."))) segments).
Proof.
  unfold joinpath. induction 1 as [| p segments [Hne Hp] _ IH]; intros q.
  - simpl. rewrite app_nil_r. destruct q. reflexivity.
  - cbn [fold_left List.filter]. cbv zeta.
    rewrite (Path_of_piece p Hne Hp). cbn [Path_root truthy Path_components].
    rewrite IH. cbn [Path_root Path_components]. rewrite <- app_assoc.
    destruct (decide (p = py ".")) as [Hd | Hd];
      [rewrite !bool_decide_eq_true_2 by exact Hd
      | rewrite !bool_decide_eq_false_2 by exact Hd];
      reflexivity.
Qed.

(** X19.  The directory [GentoolSpider.__init__] stores in [self.outdir]
    has the root of [outdir] and, after the components of [outdir], the
    pieces of [subpath] between slashes that are neither empty nor ".",
    in their order; a piece ".." is kept, so the directory need not lie
    under [outdir].  None of the components added is empty, holds a slash
    or is "."; and the directory for two subpaths joined by a slash is
    the directory for the first joined with the pieces of the second, so
    that slashes in a row, or at either end, add nothing. *)
Theorem GentoolSpider_outdir_spec subpath other outdir :
  let added :=
    List.filter (fun p => truthy p && negb (bool_decide (p = py ".")))
      (split (ord "/") subpath) in
  GentoolSpider_outdir subpath outdir
  = MkPath (Path_root (Path_of outdir))
      (Path_components (Path_of outdir) ++ added)
  /\ Forall (fun p => p <> [] /\ (ord "/" ∉ p) /\ p <> py ".") added
  /\ GentoolSpider_outdir (subpath ++ ord "/" :: other) outdir
     = joinpath (GentoolSpider_outdir subpath outdir) (path_parts other).
Proof.
  intros added.
  assert (added
          = List.filter (fun p => negb (bool_decide (p = py ".")))
              (path_parts subpath)) as Hadded.
  { unfold added, path_parts.
    induction (split (ord "/") subpath) as [| p l IH]; [reflexivity |].
    cbn [List.filter]. destruct (truthy p); cbn [andb List.filter];
      rewrite IH; reflexivity. }
  split; [| split].
  - unfold GentoolSpider_outdir.
    rewrite (joinpath_pieces _ (path_parts_pieces subpath)), Hadded.
    reflexivity.
  - rewrite Hadded. apply Forall_forall. intros p Hin.
    apply list_elem_of_In, filter_In in Hin as [Hin Hdot].
    pose proof (path_parts_pieces subpath) as Hall.
    rewrite Forall_forall in Hall.
    destruct (Hall p (proj2 (list_elem_of_In _ _) Hin)) as [Hne Hp].
    split; [exact Hne |]. split; [exact Hp |].
    apply negb_true_iff, bool_decide_eq_false in Hdot. exact Hdot.
  - unfold GentoolSpider_outdir, joinpath.
    rewrite path_parts_app, fold_left_app. reflexivity.
Qed.

(** ** The leading digits of a map file *)

Lemma int_end_cons c value :
  ReplayMetadata.int_end (c :: value)
  = if (c <=? 57) && (48 <=? c) then S (ReplayMetadata.int_end value)
    else 0%nat.
Proof.
  cbn [ReplayMetadata.int_end]. change (ord "9") with 57.
  change (ord "0") with 48.
  destruct ((c <=? 57) && (48 <=? c)); reflexivity.
Qed.

Lemma int_end_spec value :
  Forall (fun c => 48 <= c <= 57) (take (ReplayMetadata.int_end value) value)
  /\ length (take (ReplayMetadata.int_end value) value)
     = ReplayMetadata.int_end value
  /\ ReplayMetadata.int_end (drop (ReplayMetadata.int_end value) value)
     = 0%nat.
Proof.
  induction value as [| c value IH].
  - repeat split. constructor.
  - rewrite int_end_cons.
    destruct ((c <=? 57) && (48 <=? c)) eqn:E.
    + apply andb_true_iff in E as [E1 E2].
      apply Z.leb_le in E1, E2.
      destruct IH as (Hall & Hlen & Hend). cbn [take drop length].
      repeat split; [constructor; [lia | exact Hall] | | exact Hend].
      rewrite Hlen. reflexivity.
    + cbn [take drop length]. repeat split; [constructor |].
      rewrite int_end_cons, E. reflexivity.
Qed.

Lemma transform_ascii s :
  Forall (fun c => 48 <= c <= 57) s -> transform_decimal_and_space s = s.
Proof.
  induction 1 as [| c s Hc _ IH]; simpl; [reflexivity |].
  destruct (Z.ltb_spec c 128); [| lia]. rewrite IH. reflexivity.
Qed.

Lemma scan_digits_decimal digits :
  Forall (fun c => 48 <= c <= 57) digits ->
  forall value n,
    scan_digits 10 digits false value n
    = Some (fold_left (fun value c => value * 10 + (c - 48)) digits value,
            n + Z.of_nat (length digits), []).
Proof.
  induction 1 as [| c s Hc _ IH]; intros value n; simpl.
  - rewrite Z.add_0_r. reflexivity.
  - destruct (Z.eqb_spec c 95); [lia |].
    unfold digit_value.
    destruct (Z.leb_spec 48 c); [| lia]. destruct (Z.leb_spec c 57); [| lia].
    simpl. destruct (Z.ltb_spec (c - 48) 10); [| lia].
    rewrite IH. do 3 f_equal. lia.
Qed.

Lemma digit_cases c :
  48 <= c <= 57 ->
  c = 48 \/ c = 49 \/ c = 50 \/ c = 51 \/ c = 52 \/ c = 53 \/ c = 54
  \/ c = 55 \/ c = 56 \/ c = 57.
Proof. lia. Qed.

(** [int] on a text of decimal digits only. *)
Lemma int_digits digits :
  digits <> [] -> Forall (fun c => 48 <= c <= 57) digits ->
  int 10 digits
  = if int_max_str_digits <? Z.of_nat (length digits) then inl ValueError
    else inr (decimal digits).
Proof.
  intros Hne Hall. unfold int. rewrite (transform_ascii _ Hall).
  destruct digits as [| c digits]; [congruence |].
  apply Forall_cons in Hall as [Hc Hall].
  assert (forall v n,
             scan_digits 10 (c :: digits) false v n
             = Some (fold_left (fun value c => value * 10 + (c - 48))
                       (c :: digits) v,
                     n + Z.of_nat (length (c :: digits)), []))
    as Hscan by (apply scan_digits_decimal; constructor; assumption).
  unfold decimal.
  destruct (digit_cases c Hc)
    as [-> | [-> | [-> | [-> | [-> | [-> | [-> | [-> | [-> | ->]]]]]]]]];
    cbn [skip_spaces];
    match goal with
    | |- context [isspace_ascii ?k] => change (isspace_ascii k) with false
    end;
    cbv beta iota zeta; change (10 =? 16) with false; cbn [andb negb];
    try (destruct digits; cbv beta iota zeta);
    rewrite Hscan; change (skip_spaces []) with (@nil Z);
    rewrite Z.add_0_l, Z.mul_1_l;
    match goal with
    | |- context [Z.of_nat (length ?l) =? 0] =>
        destruct (Z.eqb_spec (Z.of_nat (length l)) 0) as [E | _];
        [simpl in E; lia |]
    end;
    reflexivity.
Qed.

Lemma decimal_nonneg digits :
  Forall (fun c => 48 <= c <= 57) digits -> 0 <= decimal digits.
Proof.
  unfold decimal.
  assert (forall v, 0 <= v ->
            Forall (fun c => 48 <= c <= 57) digits ->
            0 <= fold_left (fun value c => value * 10 + (c - 48)) digits v)
    as Hgen.
  { induction digits as [| c s IH]; intros v Hv Hall; simpl; [exact Hv |].
    apply Forall_cons in Hall as [Hc Hall]. apply IH; [lia | exact Hall]. }
  apply Hgen. lia.
Qed.

(** X20.  For the key [M] and a value that starts with a decimal digit, the
    entry stores the number written by the leading run of digits and, as
    the path, what follows that run: the stored number is not negative and
    the stored path does not start with a digit.  A run of more than 4300
    digits is refused by [int] with [ValueError]. *)
Theorem mapfile_leading_digits metadata value w :
  (0 < ReplayMetadata.int_end value)%nat ->
  let n := ReplayMetadata.int_end value in
  ReplayMetadata.parse_entry metadata (py "M=" ++ value) w
  = (if 4300 <? Z.of_nat n then inl ValueError
     else inr (ReplayMetadata.set_mapfile (drop n value)
                 (ReplayMetadata.set_mapfile_unknown_int
                    (decimal (take n value)) metadata)), w)
  /\ 0 <= decimal (take n value)
  /\ ReplayMetadata.int_end (drop n value) = 0%nat.
Proof.
  intros Hpos n. subst n.
  destruct (int_end_spec value) as (Hall & Hlen & Hend).
  split; [| split; [apply decimal_nonneg; exact Hall | exact Hend]].
  unfold ReplayMetadata.parse_entry.
  change (split1 (ord "=") (py "M=" ++ value)) with [py "M"; value].
  cbv iota. repeat (case_decide; try discriminate); [| congruence].
  cbv zeta. unfold bind, lift, ret.
  rewrite int_digits; [| | exact Hall].
  - rewrite Hlen. change int_max_str_digits with 4300.
    destruct (4300 <? _); reflexivity.
  - intros E. rewrite E in Hlen. simpl in Hlen. lia.
Qed.

Lemma mapfile_leading_digits_witness :
  (0 < ReplayMetadata.int_end (py "007maps/a.map"))%nat
  /\ ReplayMetadata.parse_entry
       (ReplayMetadata.mk 0 [] 0 0 0 0 0 0 (inl 0) 0)
       (py "M=007maps/a.map") (World [] [[]])
     = (inr (ReplayMetadata.mk 7 (py "maps/a.map") 0 0 0 0 0 0 (inl 0) 0),
        World [] [[]]).
Proof.
  split; [vm_compute; lia |].
  apply (proj1 (mapfile_leading_digits
                  (ReplayMetadata.mk 0 [] 0 0 0 0 0 0 (inl 0) 0)
                  (py "007maps/a.map") (World [] [[]])
                  ltac:(vm_compute; lia))).
Defined.
